(** * clouds server (lib/server.js): a shallow embedding and its properties

    The node keeps a table of named service handlers, advertises each one
    under a broker key with a time-to-live, listens on its own channel and
    answers [call] envelopes on the channel of their sender.

    The embedding follows lib/server.js function by function.  The object
    [this] is the record [Server]; everything outside it (the broker's key
    space, the commands issued on the two connections, the timer, the events
    handed to local listeners) is the record [World], threaded through every
    operation.  Asynchronous completions are run in place: a broker reply or
    a handler's completion callback is applied where the source registers
    it. *)

From Stdlib Require Import ZArith String Ascii List Bool Lia DecimalString.
From stdpp Require Import gmap strings list.

Local Open Scope string_scope.
Local Open Scope list_scope.

(** ** JavaScript values

    A number is a binary64 value: NaN, an infinity, or a finite dyadic
    rational.  [Fin z] is a finite number without fractional part and
    [Frac m p] the number [m / 2^p] with [m] odd, which is never an
    integer.  Negative zero is not told apart from zero: the code only
    compares numbers with zero and multiplies them.  Strings are UTF-8
    texts. *)

Inductive jsnum : Type :=
  | NaN
  | Fin (z : Z)
  | Frac (m : Z) (p : positive)
  | Inf (negative : bool).

Inductive jsval : Type :=
  | JUndefined
  | JNull
  | JBool (b : bool)
  | JNum (n : jsnum)
  | JStr (s : string).

Fixpoint trailing_zeros (p : positive) : Z :=
  match p with
  | xO p' => 1 + trailing_zeros p'
  | _ => 0
  end.

(** The number [q * 2^s] for [q >= 0], with the sign given. *)
Definition dyadic (negative : bool) (q s : Z) : jsnum :=
  let sign (x : Z) := if negative then (- x)%Z else x in
  match q with
  | Zpos qp =>
      if (0 <=? s)%Z then Fin (sign (q * 2 ^ s)%Z)
      else
        let t := Z.min (trailing_zeros qp) (- s) in
        if (s + t =? 0)%Z then Fin (sign (q / 2 ^ t)%Z)
        else Frac (sign (q / 2 ^ t)%Z) (Z.to_pos (- (s + t)))
  | _ => Fin 0
  end.

(** The binary64 value nearest to [n / d] for [n >= 0] and [d > 0], ties
    to even, with the sign given: 53 significant bits, exponents down to
    [2^-1074], infinity from [2^1024 - 2^970] on. *)
Definition nearest_double (negative : bool) (n d : Z) : jsnum :=
  if (n <=? 0)%Z then Fin 0
  else
    let quot (s : Z) : Z :=
      if (0 <=? s)%Z then (n / (d * 2 ^ s))%Z else (n * 2 ^ (- s) / d)%Z in
    let s1 := (Z.log2 n - Z.log2 d - 52)%Z in
    let s2 := if (2 ^ 52 <=? quot s1)%Z then s1 else (s1 - 1)%Z in
    let s := Z.max s2 (-1074) in
    let num := if (0 <=? s)%Z then n else (n * 2 ^ (- s))%Z in
    let den := if (0 <=? s)%Z then (d * 2 ^ s)%Z else d in
    let q := (num / den)%Z in
    let r := (num mod den)%Z in
    let q' :=
      if (den <? 2 * r)%Z || ((den =? 2 * r)%Z && Z.odd q) then (q + 1)%Z
      else q in
    if (0 <=? s)%Z && (2 ^ 1024 <=? q' * 2 ^ s)%Z then Inf negative
    else dyadic negative q' s.

(** The value of a digit in a base up to 16. *)
Definition digit_in (base : Z) (c : ascii) : option Z :=
  let n := Z.of_N (N_of_ascii c) in
  let v :=
    if ((48 <=? n) && (n <=? 57))%Z then Some (n - 48)%Z
    else if ((97 <=? n) && (n <=? 102))%Z then Some (n - 87)%Z
    else if ((65 <=? n) && (n <=? 70))%Z then Some (n - 55)%Z
    else None in
  match v with
  | Some d => if (d <? base)%Z then Some d else None
  | None => None
  end.

Definition digit_of (c : ascii) : option Z := digit_in 10 c.

(** The value of a text made of digits only. *)
Fixpoint parse_in (base acc : Z) (cs : list ascii) : option Z :=
  match cs with
  | [] => Some acc
  | c :: cs' =>
      match digit_in base c with
      | Some d => parse_in base (acc * base + d)%Z cs'
      | None => None
      end
  end.

Definition parse_digits (acc : Z) (cs : list ascii) : option Z :=
  parse_in 10 acc cs.

(** The leading decimal digits of a text, and what follows them. *)
Fixpoint span_digits (cs : list ascii) : list ascii * list ascii :=
  match cs with
  | [] => ([], [])
  | c :: cs' =>
      match digit_of c with
      | Some _ => let (ds, rest) := span_digits cs' in (c :: ds, rest)
      | None => ([], cs)
      end
  end.

(** White space and line terminators, as UTF-8 byte sequences: TAB, LF,
    VT, FF, CR, SP, U+00A0, U+1680, U+2000 to U+200A, U+2028, U+2029,
    U+202F, U+205F, U+3000 and U+FEFF. *)
Definition white_space : list (list nat) :=
  [ [9]; [10]; [11]; [12]; [13]; [32]; [194; 160]; [225; 154; 128];
    [226; 128; 128]; [226; 128; 129]; [226; 128; 130]; [226; 128; 131];
    [226; 128; 132]; [226; 128; 133]; [226; 128; 134]; [226; 128; 135];
    [226; 128; 136]; [226; 128; 137]; [226; 128; 138]; [226; 128; 168];
    [226; 128; 169]; [226; 128; 175]; [226; 129; 159]; [227; 128; 128];
    [239; 187; 191] ].

Fixpoint strip_prefix (token cs : list ascii) : option (list ascii) :=
  match token with
  | [] => Some cs
  | t :: token' =>
      match cs with
      | c :: cs' => if Ascii.eqb t c then strip_prefix token' cs' else None
      | [] => None
      end
  end.

Fixpoint strip_any (tokens : list (list ascii)) (cs : list ascii)
    : option (list ascii) :=
  match tokens with
  | [] => None
  | t :: tokens' =>
      match strip_prefix t cs with
      | Some rest => Some rest
      | None => strip_any tokens' cs
      end
  end.

Fixpoint strip_leading (fuel : nat) (tokens : list (list ascii))
    (cs : list ascii) : list ascii :=
  match fuel with
  | O => cs
  | S fuel' =>
      match strip_any tokens cs with
      | Some rest => strip_leading fuel' tokens rest
      | None => cs
      end
  end.

(** The text without the white space around it. *)
Definition trim (cs : list ascii) : list ascii :=
  let tokens := map (map ascii_of_nat) white_space in
  let front := strip_leading (length cs) tokens cs in
  rev (strip_leading (length front) (map (@rev ascii) tokens) (rev front)).

(** The part of a decimal literal after the exponent mark. *)
Definition parse_exponent (cs : list ascii) : option Z :=
  match cs with
  | [] => None
  | c :: ds =>
      if Ascii.eqb c "-" then
        match ds with [] => None | _ => Z.opp <$> parse_digits 0 ds end
      else if Ascii.eqb c "+" then
        match ds with [] => None | _ => parse_digits 0 ds end
      else parse_digits 0 cs
  end.

(** An unsigned decimal literal: digits with an optional fraction and an
    optional exponent, at least one digit before the exponent.  Literals
    beyond the range of binary64 are settled from the exponent alone. *)
Definition parse_decimal (negative : bool) (cs : list ascii) : jsnum :=
  let (ip, r1) := span_digits cs in
  let (fp, r2) :=
    match r1 with
    | c :: r => if Ascii.eqb c "." then span_digits r else ([], r1)
    | [] => ([], r1)
    end in
  match ip ++ fp with
  | [] => NaN
  | ds =>
      let exponent :=
        match r2 with
        | [] => Some 0%Z
        | c :: r =>
            if Ascii.eqb c "e" || Ascii.eqb c "E" then parse_exponent r
            else None
        end in
      match exponent, parse_digits 0 ds with
      | Some e, Some m =>
          let e' := (e - Z.of_nat (length fp))%Z in
          if (m =? 0)%Z then Fin 0
          else if (400 <? e')%Z then Inf negative
          else if (e' <? - Z.of_nat (length ds) - 400)%Z then Fin 0
          else if (0 <=? e')%Z then nearest_double negative (m * 10 ^ e') 1
          else nearest_double negative m (10 ^ (- e'))
      | _, _ => NaN
      end
  end.

Definition infinity_text : list ascii := list_ascii_of_string "Infinity".

Definition parse_signless (negative : bool) (cs : list ascii) : jsnum :=
  match strip_prefix infinity_text cs with
  | Some [] => Inf negative
  | _ => parse_decimal negative cs
  end.

(** An integer literal in base 16, 8 or 2 after its two-character mark. *)
Definition parse_radix (base : Z) (ds : list ascii) : jsnum :=
  match ds with
  | [] => NaN
  | _ =>
      match parse_in base 0 ds with
      | Some z => nearest_double false z 1
      | None => NaN
      end
  end.

(** ToNumber on a string: the empty or blank string is 0; otherwise the
    trimmed text must be a signed decimal literal, a signed [Infinity],
    or an unsigned literal marked [0x], [0o] or [0b]. *)
Definition string_to_number (s : string) : jsnum :=
  match trim (list_ascii_of_string s) with
  | [] => Fin 0
  | c :: ds =>
      if Ascii.eqb c "-" then parse_signless true ds
      else if Ascii.eqb c "+" then parse_signless false ds
      else if Ascii.eqb c "0" then
        match ds with
        | m :: hs =>
            if Ascii.eqb m "x" || Ascii.eqb m "X" then parse_radix 16 hs
            else if Ascii.eqb m "o" || Ascii.eqb m "O" then parse_radix 8 hs
            else if Ascii.eqb m "b" || Ascii.eqb m "B" then parse_radix 2 hs
            else parse_signless false (c :: ds)
        | [] => Fin 0
        end
      else parse_signless false (c :: ds)
  end.

Definition to_number (v : jsval) : jsnum :=
  match v with
  | JUndefined => NaN
  | JNull => Fin 0
  | JBool true => Fin 1
  | JBool false => Fin 0
  | JNum n => n
  | JStr s => string_to_number s
  end.

(** [n > k] for an integer [k]. *)
Definition num_gt (n : jsnum) (k : Z) : bool :=
  match n with
  | Fin z => (k <? z)%Z
  | Frac m p => (k * 2 ^ Zpos p <? m)%Z
  | Inf negative => negb negative
  | NaN => false
  end.

(** [n < k] for an integer [k]. *)
Definition num_lt (n : jsnum) (k : Z) : bool :=
  match n with
  | Fin z => (z <? k)%Z
  | Frac m p => (m <? k * 2 ^ Zpos p)%Z
  | Inf negative => negative
  | NaN => false
  end.

(** [v > k] for a numeric literal [k]: false whenever [v] is NaN. *)
Definition js_gt (v : jsval) (k : Z) : bool :=
  num_gt (to_number v) k.

(** [v * k] for a numeric literal [k].  The product of an integer is kept
    exact; the product of a fraction is rounded. *)
Definition js_mul (v : jsval) (k : Z) : jsnum :=
  match to_number v with
  | Fin z => Fin (z * k)
  | Frac m p =>
      nearest_double (xorb (m <? 0)%Z (k <? 0)%Z) (Z.abs m * Z.abs k)
        (2 ^ Zpos p)
  | Inf negative =>
      if (k =? 0)%Z then NaN else Inf (xorb negative (k <? 0)%Z)
  | NaN => NaN
  end.

(** The delay [setInterval] runs with: a delay that is not a number
    between 1 and 2147483647 milliseconds is replaced by 1. *)
Definition setInterval_delay (d : jsnum) : jsnum :=
  if negb (num_lt d 1) && negb (num_gt d 2147483647)
     && match d with NaN => false | _ => true end
  then d else Fin 1.

(** Truthiness of a string-or-undefined value; undefined is the empty
    string here. *)
Definition truthy_str (s : string) : bool :=
  negb (String.eqb s "").

(** [a === b] on values. *)
Definition strict_eq (a b : jsval) : bool :=
  match a, b with
  | JUndefined, JUndefined => true
  | JNull, JNull => true
  | JBool x, JBool y => Bool.eqb x y
  | JNum (Fin x), JNum (Fin y) => (x =? y)%Z
  | JNum (Frac m p), JNum (Frac n q) => (m =? n)%Z && (p =? q)%positive
  | JNum (Inf x), JNum (Inf y) => Bool.eqb x y
  | JStr x, JStr y => String.eqb x y
  | _, _ => false
  end.

(** ** Envelopes *)

Record Envelope : Type := mkEnvelope {
  e_type : jsval;
  e_sender : string;
  e_id : option string;
  e_name : option string;
  e_args : list jsval;
  e_error : option string
}.

(** Modelled from the spec: utils.pocketResultMessage is not in src/.  Spec
    4.4: a [result] envelope with [id] the source envelope's id, [sender]
    this node's id, the error, and [args] the results; section 8 shows
    [args: []] when no results are passed. *)
Definition pocketResultMessage (sender : string) (srcId : option string)
    (err : option string) (args : option (list jsval)) : Envelope :=
  {| e_type := JStr "result";
     e_sender := sender;
     e_id := srcId;
     e_name := None;
     e_args := match args with Some l => l | None => [] end;
     e_error := err |}.

(** Modelled from the spec: utils.pocketSendMessage is not in src/.  Spec
    4.4: a [message] envelope with [sender] this node's id and
    [args = [payload]]. *)
Definition pocketSendMessage (sender : string) (message : jsval) : Envelope :=
  {| e_type := JStr "message";
     e_sender := sender;
     e_id := None;
     e_name := None;
     e_args := [message];
     e_error := None |}.

(** ** Handlers

    A handler is called with the call's arguments and a completion
    callback.  What matters to the server is how the handler uses that
    callback: the completions it makes, in order, and whether the call
    itself throws. *)

Record Completion : Type := mkCompletion {
  c_err : option string;
  c_results : list jsval
}.

Record Run : Type := mkRun {
  calls : list Completion;
  throws : option string
}.

Definition handler : Type := list jsval -> Run.

(** [_services] is created as [{}]: a lookup that misses the own properties
    continues in Object.prototype.  An assignment to [__proto__] makes the
    assigned function the prototype instead, and the lookup then continues
    in that function, in Function.prototype and in Object.prototype. *)
Inductive Builtin : Type :=
  | BConstructor
  | BToString
  | BToLocaleString
  | BValueOf
  | BHasOwnProperty
  | BIsPrototypeOf
  | BPropertyIsEnumerable
  | BLegacyAccessor
  | BFunctionCall
  | BFunctionApply
  | BFunctionBind
  | BFunctionToString
  | BFunction
  | BRestricted.

Definition object_prototype (name : string) : option Builtin :=
  if String.eqb name "constructor" then Some BConstructor
  else if String.eqb name "toString" then Some BToString
  else if String.eqb name "toLocaleString" then Some BToLocaleString
  else if String.eqb name "valueOf" then Some BValueOf
  else if String.eqb name "hasOwnProperty" then Some BHasOwnProperty
  else if String.eqb name "isPrototypeOf" then Some BIsPrototypeOf
  else if String.eqb name "propertyIsEnumerable" then Some BPropertyIsEnumerable
  else if String.eqb name "__defineGetter__" then Some BLegacyAccessor
  else if String.eqb name "__defineSetter__" then Some BLegacyAccessor
  else if String.eqb name "__lookupGetter__" then Some BLegacyAccessor
  else if String.eqb name "__lookupSetter__" then Some BLegacyAccessor
  else None.

(** What a table inherits once a function is its prototype: the functions
    of Function.prototype, then those of Object.prototype that are not
    shadowed.  [caller] and [arguments] are restricted properties: reading
    them through a strict function raises a TypeError, through a non-strict
    one it yields [null]; they are listed as [BRestricted], and nothing is
    stated about them. *)
Definition function_prototype (name : string) : option Builtin :=
  if String.eqb name "caller" then Some BRestricted
  else if String.eqb name "arguments" then Some BRestricted
  else if String.eqb name "call" then Some BFunctionCall
  else if String.eqb name "apply" then Some BFunctionApply
  else if String.eqb name "bind" then Some BFunctionBind
  else if String.eqb name "toString" then Some BFunctionToString
  else if String.eqb name "constructor" then Some BFunction
  else object_prototype name.

(** A function found under a service name. *)
Inductive Callee : Type :=
  | Registered (h : handler)
  | Inherited (b : Builtin).

(** [fn.apply(null, args.concat(cb))] for an inherited function: none of
    them calls its last argument.  Object and Object.prototype.toString
    return; isPrototypeOf returns when its first argument is a primitive,
    which it is unless the call has no arguments and the callback comes
    first; the others need [this] to be an object or a function and throw
    a TypeError on [null]; Function throws a SyntaxError on the text of
    the callback.  The messages of these exceptions are not modelled. *)
Definition builtin_run (b : Builtin) (args : list jsval) : Run :=
  match b with
  | BConstructor | BToString => {| calls := []; throws := None |}
  | BIsPrototypeOf =>
      match args with
      | [] => {| calls := []; throws := Some "TypeError" |}
      | _ => {| calls := []; throws := None |}
      end
  | BFunction => {| calls := []; throws := Some "SyntaxError" |}
  | _ => {| calls := []; throws := Some "TypeError" |}
  end.

Definition apply_callee (fn : Callee) (args : list jsval) : Run :=
  match fn with
  | Registered h => h args
  | Inherited b => builtin_run b args
  end.

(** ** The server object and its environment *)

(** [_services] holds the own properties of the table and, under the key
    [__proto__], which an assignment never creates as an own property, the
    function that an assignment to [__proto__] made the prototype. *)
Record Server : Type := mkServer {
  id : string;
  _heartbeat : jsval;
  _prefix : string;
  _services : gmap string handler
}.

(** A completion callback passed by the caller of an operation, named by a
    tag so that its invocations can be told apart. *)
Definition Callback : Type := string.

Record Event : Type := mkEvent {
  ev_name : string;
  ev_payload : option (string * list jsval)
}.

Record World : Type := mkWorld {
  store : gmap string (string * Z);
  published : list (string * Envelope);
  subscribed : list string;
  emitted : list Event;
  invoked : list (string * list jsval);
  decoded : list string;
  timer : option jsnum;
  cp_open : bool;
  cs_open : bool;
  notified : list (Callback * option string);
  uncaught : list string
}.

Definition empty_world : World :=
  {| store := ∅; published := []; subscribed := []; emitted := [];
     invoked := []; decoded := []; timer := None; cp_open := false;
     cs_open := false; notified := []; uncaught := [] |}.

Definition with_store (f : gmap string (string * Z) -> gmap string (string * Z))
    (w : World) : World :=
  {| store := f (store w); published := published w;
     subscribed := subscribed w; emitted := emitted w; invoked := invoked w;
     decoded := decoded w; timer := timer w; cp_open := cp_open w;
     cs_open := cs_open w; notified := notified w; uncaught := uncaught w |}.

Definition log_publish (p : string * Envelope) (w : World) : World :=
  {| store := store w; published := published w ++ [p];
     subscribed := subscribed w; emitted := emitted w; invoked := invoked w;
     decoded := decoded w; timer := timer w; cp_open := cp_open w;
     cs_open := cs_open w; notified := notified w; uncaught := uncaught w |}.

Definition log_subscribe (ch : string) (w : World) : World :=
  {| store := store w; published := published w;
     subscribed := subscribed w ++ [ch]; emitted := emitted w;
     invoked := invoked w; decoded := decoded w; timer := timer w;
     cp_open := cp_open w; cs_open := cs_open w; notified := notified w;
     uncaught := uncaught w |}.

Definition log_emit (e : Event) (w : World) : World :=
  {| store := store w; published := published w;
     subscribed := subscribed w; emitted := emitted w ++ [e];
     invoked := invoked w; decoded := decoded w; timer := timer w;
     cp_open := cp_open w; cs_open := cs_open w; notified := notified w;
     uncaught := uncaught w |}.

Definition log_invoke (c : string * list jsval) (w : World) : World :=
  {| store := store w; published := published w;
     subscribed := subscribed w; emitted := emitted w;
     invoked := invoked w ++ [c]; decoded := decoded w; timer := timer w;
     cp_open := cp_open w; cs_open := cs_open w; notified := notified w;
     uncaught := uncaught w |}.

Definition log_decode (raw : string) (w : World) : World :=
  {| store := store w; published := published w;
     subscribed := subscribed w; emitted := emitted w; invoked := invoked w;
     decoded := decoded w ++ [raw]; timer := timer w; cp_open := cp_open w;
     cs_open := cs_open w; notified := notified w; uncaught := uncaught w |}.

Definition set_timer (t : option jsnum) (w : World) : World :=
  {| store := store w; published := published w;
     subscribed := subscribed w; emitted := emitted w; invoked := invoked w;
     decoded := decoded w; timer := t; cp_open := cp_open w;
     cs_open := cs_open w; notified := notified w; uncaught := uncaught w |}.

Definition set_cp (b : bool) (w : World) : World :=
  {| store := store w; published := published w;
     subscribed := subscribed w; emitted := emitted w; invoked := invoked w;
     decoded := decoded w; timer := timer w; cp_open := b;
     cs_open := cs_open w; notified := notified w; uncaught := uncaught w |}.

Definition set_cs (b : bool) (w : World) : World :=
  {| store := store w; published := published w;
     subscribed := subscribed w; emitted := emitted w; invoked := invoked w;
     decoded := decoded w; timer := timer w; cp_open := cp_open w;
     cs_open := b; notified := notified w; uncaught := uncaught w |}.

Definition log_notify (n : Callback * option string) (w : World) : World :=
  {| store := store w; published := published w;
     subscribed := subscribed w; emitted := emitted w; invoked := invoked w;
     decoded := decoded w; timer := timer w; cp_open := cp_open w;
     cs_open := cs_open w; notified := notified w ++ [n];
     uncaught := uncaught w |}.

(** An exception that nothing in server.js catches. *)
Definition raise (e : string) (w : World) : World :=
  {| store := store w; published := published w;
     subscribed := subscribed w; emitted := emitted w; invoked := invoked w;
     decoded := decoded w; timer := timer w; cp_open := cp_open w;
     cs_open := cs_open w; notified := notified w;
     uncaught := uncaught w ++ [e] |}.

(** ** The broker

    The key space maps a key to its value and its remaining time-to-live in
    seconds; an expired or absent key has no entry. *)

(** KEYS patterns: [*] matches any run of characters, [?] any one
    character, every other character itself.  Character classes and
    escapes are left out; the statements below take node ids and prefixes
    free of the opening bracket and the backslash, on which this agrees
    with the broker. *)
Fixpoint glob_match (p : list ascii) (s : list ascii) {struct p} : bool :=
  match p with
  | [] => match s with [] => true | _ => false end
  | c :: p' =>
      if Ascii.eqb c "*" then
        (fix star (s : list ascii) : bool :=
           glob_match p' s
           || match s with [] => false | _ :: s' => star s' end) s
      else if Ascii.eqb c "?" then
        match s with [] => false | _ :: s' => glob_match p' s' end
      else
        match s with
        | [] => false
        | d :: s' => Ascii.eqb c d && glob_match p' s'
        end
  end.

Definition key_matches (pattern key : string) : bool :=
  glob_match (list_ascii_of_string pattern) (list_ascii_of_string key).

(** Characters that stand for themselves in a pattern. *)
Definition plain_char (c : ascii) : bool :=
  negb (Ascii.eqb c "*" || Ascii.eqb c "?" || Ascii.eqb c "["
        || Ascii.eqb c (ascii_of_nat 92)).

Definition plain (s : string) : Prop :=
  forallb plain_char (list_ascii_of_string s) = true.

(** GET *)
Definition cp_get (w : World) (key : string) : jsval :=
  match store w !! key with
  | Some (v, _) => JStr v
  | None => JNull
  end.

(** The text the client sends for a value (ToString).  server.js sends
    the number 0 and replies of GET, which are strings; a fraction, which
    it never sends, is written as a quotient, not in decimal digits. *)
Definition wire_value (v : jsval) : string :=
  match v with
  | JStr s => s
  | JNum (Fin z) => NilZero.string_of_int (Z.to_int z)
  | JNum NaN => "NaN"
  | JNum (Inf false) => "Infinity"
  | JNum (Inf true) => "-Infinity"
  | JNum (Frac m p) =>
      NilZero.string_of_int (Z.to_int m) +:+ "/2^"
      +:+ NilZero.string_of_int (Z.to_int (Zpos p))
  | JBool true => "true"
  | JBool false => "false"
  | JNull => "null"
  | JUndefined => "undefined"
  end.

(** SETEX: the broker rejects a time-to-live that is not a positive
    integer (a fraction, an infinity, NaN, zero, a negative number) and
    leaves the key as it was. *)
Definition cp_setex (w : World) (key : string) (ttl : jsnum) (v : jsval)
    : World :=
  match ttl with
  | Fin t => if (0 <? t)%Z then with_store (<[key := (wire_value v, t)]>) w else w
  | _ => w
  end.

(** KEYS *)
Definition cp_keys (w : World) (pattern : string) : list string :=
  filter (fun k => key_matches pattern k = true) (map_to_list (store w)).*1.

(** DEL *)
Definition cp_del (w : World) (l : list string) : World :=
  with_store (fun m => foldr delete m l) w.

(** PUBLISH *)
Definition cp_publish (w : World) (channel : string) (data : Envelope)
    : World :=
  log_publish (channel, data) w.

(** ** lib/server.js *)

(** [_key]: the segments, after the prefix when there is one, joined
    with a colon. *)
Definition _key (me : Server) (segments : list string) : string :=
  String.concat ":"
    (if truthy_str (_prefix me) then _prefix me :: segments else segments).

(** [_callback]: the caller's function, or a function that only writes a
    debug line. *)
Inductive Fn : Type :=
  | UserFn (c : Callback)
  | DebugFn.

Definition _callback (fn : option Callback) : Fn :=
  match fn with
  | Some c => UserFn c
  | None => DebugFn
  end.

Definition call_fn (f : Fn) (err : option string) (w : World) : World :=
  match f with
  | UserFn c => log_notify (c, err) w
  | DebugFn => w
  end.

(** Calling a value that may be [undefined]. *)
Definition call_value (f : option Callback) (err : option string) (w : World)
    : World :=
  match f with
  | Some c => log_notify (c, err) w
  | None => raise "TypeError: callback is not a function" w
  end.

(** The property key of [msg.name]. *)
Definition prop_key (name : option string) : string :=
  match name with
  | Some n => n
  | None => "undefined"
  end.

(** [me._services[name]]: an own property, or for [__proto__] the
    prototype when it is a function, or a function inherited through the
    prototype. *)
Definition lookup_service (services : gmap string handler) (name : string)
    : option Callee :=
  match services !! name with
  | Some h => Some (Registered h)
  | None =>
      Inherited <$>
        match services !! "__proto__" with
        | Some _ => function_prototype name
        | None => object_prototype name
        end
  end.

(** [Object.keys(me._services)]: the own properties.  The map does not
    keep the order in which they were added. *)
Definition own_keys (services : gmap string handler) : list string :=
  filter (fun n => n <> "__proto__") (map_to_list services).*1.

(** [_resetServiceScore] *)
Definition _resetServiceScore (me : Server) (w : World) (name : string)
    (callback : option Callback) : World :=
  let key := _key me ["S"; name; id me] in
  let ttl := js_mul (_heartbeat me) 2 in
  let w' := cp_setex w key ttl (JNum (Fin 0)) in
  call_fn (_callback callback)
    (match ttl with
     | Fin t => if (0 <? t)%Z then None else Some "ERR invalid expire time"
     | _ => Some "ERR value is not an integer or out of range"
     end) w'.

(** [register]: the assignment [this._services[name] = handle] and the
    reset of the score.  For the name [__proto__] the assignment replaces
    the prototype of the table; the entry written under that key is the
    prototype (see [Server]). *)
Definition register (me : Server) (w : World) (name : string) (handle : handler)
    (callback : option Callback) : Server * World :=
  let me' := {| id := id me; _heartbeat := _heartbeat me;
                _prefix := _prefix me;
                _services := <[name := handle]> (_services me) |} in
  (me', _resetServiceScore me' w name callback).

(** The receiver of a function the broker client calls back: the client
    does not bind it to the server, so [this] there is an object without
    the server's properties. *)
Inductive Receiver : Type :=
  | ThisServer (s : Server)
  | ThisForeign.

Definition this_heartbeat (this : Receiver) : jsval :=
  match this with
  | ThisServer s => _heartbeat s
  | ThisForeign => JUndefined
  end.

Definition this_callback (this : Receiver) : option (option Callback -> Fn) :=
  match this with
  | ThisServer _ => Some _callback
  | ThisForeign => None
  end.

(** The function passed to [get] in [_keepServiceScore]. *)
Definition keep_reply (me : Server) (this : Receiver) (key name : string)
    (callback : option Callback) (err : option string) (ret : jsval)
    (w : World) : World :=
  if (match err with Some _ => true | None => false end) || negb (js_gt ret 0)
  then _resetServiceScore me w name None
  else
    let ttl := js_mul (this_heartbeat this) 2 in
    match this_callback this with
    | None => raise "TypeError: this._callback is not a function" w
    | Some cb =>
        let w' := cp_setex w key ttl ret in
        call_fn (cb callback)
          (match ttl with
           | Fin t => if (0 <? t)%Z then None else Some "ERR invalid expire time"
           | _ => Some "ERR value is not an integer or out of range"
           end) w'
    end.

(** [_keepServiceScore]; [get_err] is the failure of the GET command, if
    any. *)
Definition _keepServiceScore (me : Server) (w : World) (name : string)
    (callback : option Callback) (get_err : option string) : World :=
  let key := _key me ["S"; name; id me] in
  keep_reply me ThisForeign key name callback get_err
    (match get_err with Some _ => JUndefined | None => cp_get w key end) w.

(** The replies to the GETs of one heartbeat, handled one after the
    other: an exception that a reply function raises is not caught, and
    the replies after it are not handled. *)
Fixpoint keep_each (me : Server) (w : World) (names : list string) : World :=
  match names with
  | [] => w
  | n :: rest =>
      let w' := _keepServiceScore me w n None None in
      if (length (uncaught w) <? length (uncaught w'))%nat then w'
      else keep_each me w' rest
  end.

(** [_keepHeartbeat]: one refresh for each of [Object.keys(me._services)]. *)
Definition _keepHeartbeat (me : Server) (w : World) : World :=
  keep_each me w (own_keys (_services me)).

(** [_responseResult] *)
Definition _responseResult (me : Server) (w : World) (sourceMsg : Envelope)
    (err : option string) (args : option (list jsval)) : World :=
  let key := _key me ["L"; e_sender sourceMsg] in
  let msg := pocketResultMessage (id me) (e_id sourceMsg) err args in
  cp_publish w key msg.

(** [_handleCallService] *)
Definition _handleCallService (me : Server) (w : World) (msg : Envelope)
    : World :=
  match lookup_service (_services me) (prop_key (e_name msg)) with
  | None =>
      _responseResult me w msg (Some "service handler not found") None
  | Some fn =>
      let run := apply_callee fn (e_args msg) in
      let w1 := log_invoke (prop_key (e_name msg), e_args msg) w in
      let w2 :=
        foldl (fun w c =>
                 _responseResult me w msg (c_err c) (Some (c_results c)))
          w1 (calls run) in
      match throws run with
      | Some e => raise e w2
      | None => w2
      end
  end.

(** [_handleSendMessage] *)
Definition _handleSendMessage (me : Server) (w : World) (msg : Envelope)
    : World :=
  log_emit {| ev_name := "message";
              ev_payload := Some (e_sender msg, e_args msg) |} w.

(** [_handleMessage] *)
Definition _handleMessage (me : Server) (w : World) (msg : Envelope) : World :=
  if strict_eq (e_type msg) (JStr "call") then _handleCallService me w msg
  else if strict_eq (e_type msg) (JStr "message") then
    _handleSendMessage me w msg
  else _responseResult me w msg (Some "unknown message type") None.

(** [_sendMessage] *)
Definition _sendMessage (me : Server) (w : World) (receiver : string)
    (msg : Envelope) : World :=
  let key := _key me ["L"; receiver] in
  cp_publish w key msg.

(** [send] *)
Definition send (me : Server) (w : World) (receiver : string) (message : jsval)
    (callback : option Callback) : World :=
  let msg := pocketSendMessage (id me) message in
  _sendMessage me w receiver msg.

(** The listener [_listen] installs for the client's [subscribe] event. *)
Definition on_subscribe (me : Server) (w : World) (channel : string)
    (count : Z) : World :=
  log_emit {| ev_name := "listen"; ev_payload := None |} w.

(** [exit]; [keys_err] and [del_err] are the failures of the KEYS and DEL
    commands, if any. *)
Definition delKeysSuccess (me : Server) (callback : option Callback)
    (w : World) : World :=
  let w1 := set_timer None w in
  let w2 := set_cp false w1 in
  let w3 := set_cs false w2 in
  let _ := _callback callback in
  w3.

Definition exit_pattern (me : Server) : string :=
  _key me ["*" +:+ id me +:+ "*"].

Definition exit (me : Server) (w : World) (callback : option Callback)
    (keys_err del_err : option string) : World :=
  let key := exit_pattern me in
  match keys_err with
  | Some err => call_value callback (Some err) w
  | None =>
      let l := cp_keys w key in
      if (0 <? length l)%nat then
        match del_err with
        | Some err => call_value callback (Some err) w
        | None => delKeysSuccess me callback (cp_del w l)
        end
      else delKeysSuccess me callback w
  end.

Record Options : Type := mkOptions {
  heartbeat : jsval;
  redis_prefix : string
}.

Section Collaborators.

(** lib/define.js and lib/utils.js are not part of the sources at hand:
    the two constants, the message decoder and the identifier generator's
    result are taken as given. *)
Variable define_heartbeat : jsval.
Variable define_redisPrefix : string.
Variable parseMessage : string -> Envelope.

(** [_listen]: the SUBSCRIBE command; the two listeners are [on_subscribe]
    and [on_message]. *)
Definition _listen (me : Server) (w : World) : World :=
  let key := _key me ["L"; id me] in
  log_subscribe key w.

(** The listener [_listen] installs for the client's [message] event. *)
Definition on_message (me : Server) (w : World) (channel msg : string)
    : World :=
  let key := _key me ["L"; id me] in
  if negb (String.eqb channel key) then w
  else _handleMessage me (log_decode msg w) (parseMessage msg).

(** Modelled from the spec: utils.createNamespace is not in src/.  Spec
    4.5 and 6: the timer runs at the configured interval and the prefix
    is the configured one, so [ns(path)] reads the field of the options
    object at [path]. *)
Definition ns_heartbeat (options : Options) : jsval := heartbeat options.

(** Modelled from the spec: utils.createNamespace is not in src/;
    [ns('redis.prefix')] reads [options.redis.prefix], the empty string
    standing for an absent one. *)
Definition ns_redis_prefix (options : Options) : string :=
  redis_prefix options.

(** The constructor; [uid] is what [utils.uniqueId('server')] returns. *)
Definition CloudsServer (uid : string) (options : option Options)
    : Server * World :=
  let options :=
    match options with
    | Some o => o
    | None => {| heartbeat := JUndefined; redis_prefix := "" |}
    end in
  let options :=
    if negb (js_gt (heartbeat options) 0)
    then {| heartbeat := define_heartbeat;
            redis_prefix := redis_prefix options |}
    else options in
  let me :=
    {| id := uid;
       _heartbeat := heartbeat options;
       _prefix := if truthy_str (ns_redis_prefix options)
                  then ns_redis_prefix options else define_redisPrefix;
       _services := ∅ |} in
  let w := set_cs true (set_cp true empty_world) in
  let w := _listen me w in
  (me, set_timer
         (Some (setInterval_delay (js_mul (ns_heartbeat options) 1000))) w).

End Collaborators.

(** The heartbeat timer, when it is still set, runs [_keepHeartbeat]. *)
Definition timer_fires (me : Server) (w : World) : World :=
  match timer w with
  | Some _ => _keepHeartbeat me w
  | None => w
  end.

(** ** Concrete nodes used in the examples below *)

(** [function (x, done) { done(null, x) }]: with any other number of
    arguments [done] is not the completion callback and the call throws. *)
Definition echo : handler :=
  fun args =>
    match args with
    | [x] => {| calls := [ {| c_err := None; c_results := [x] |} ];
                throws := None |}
    | _ => {| calls := []; throws := Some "TypeError: done is not a function" |}
    end.

Definition node_A : Server :=
  {| id := "A"; _heartbeat := JNum (Fin 5); _prefix := "clouds";
     _services := {[ "echo" := echo ]} |}.

Definition call_echo : Envelope :=
  {| e_type := JStr "call"; e_sender := "B"; e_id := Some "1";
     e_name := Some "echo"; e_args := [JStr "hi"]; e_error := None |}.

Definition node_bare : Server :=
  {| id := "A"; _heartbeat := JNum (Fin 5); _prefix := "clouds";
     _services := ∅ |}.

(** [function () { throw new Error('boom') }] *)
Definition boom : handler :=
  fun _ => {| calls := []; throws := Some "Error: boom" |}.

(** A handler that calls its last argument twice with [null]. *)
Definition twice : handler :=
  fun _ => {| calls := [ {| c_err := None; c_results := [] |};
                         {| c_err := None; c_results := [] |} ];
              throws := None |}.

Definition node_C : Server :=
  {| id := "C"; _heartbeat := JNum (Fin 5); _prefix := "clouds";
     _services := {[ "boom" := boom; "twice" := twice ]} |}.

Definition call_named (name : string) : Envelope :=
  {| e_type := JStr "call"; e_sender := "B"; e_id := Some "1";
     e_name := Some name; e_args := []; e_error := None |}.

Definition stray_result : Envelope :=
  {| e_type := JStr "result"; e_sender := "B"; e_id := Some "9";
     e_name := None; e_args := []; e_error := None |}.

(** A decoder that yields the same envelope for every payload. *)
Definition decode_as (e : Envelope) : string -> Envelope := fun _ => e.

(** The key space with a score of 7 for echo on node A, 3 seconds left. *)
Definition world_score7 : World :=
  with_store (<["clouds:S:echo:A" := ("7", 3%Z)]>) empty_world.

(** The key space with node A's key and a key of the same shape under
    another prefix. *)
Definition world_two_prefixes : World :=
  with_store (fun _ => {[ "clouds:S:echo:A" := ("0", 10%Z);
                          "other:S:echo:A" := ("0", 10%Z) ]}) empty_world.

(** A node whose prefix holds a pattern character, and a key space with
    node A's key next to a key of the same shape under a prefix that
    begins like node A's. *)
Definition node_wild : Server :=
  {| id := "A"; _heartbeat := JNum (Fin 5); _prefix := "cl?uds";
     _services := ∅ |}.

Definition world_nested : World :=
  with_store (fun _ => {[ "clouds:S:echo:A" := ("0", 10%Z);
                          "clouds:test:S:echo:A" := ("0", 10%Z) ]})
    empty_world.

(** * Properties *)

(** ** Values and keys *)

Lemma strict_eq_str (v : jsval) (s : string) :
  strict_eq v (JStr s) = true <-> v = JStr s.
Proof.
  destruct v as [| |b|[|z|m q|i]|t]; simpl; split; intros H; try discriminate.
  - apply String.eqb_eq in H. congruence.
  - inversion H. apply String.eqb_refl.
Qed.

Lemma strict_eq_str_false (v : jsval) (s : string) :
  v <> JStr s -> strict_eq v (JStr s) = false.
Proof.
  intros H. destruct (strict_eq v (JStr s)) eqn:E; [|reflexivity].
  apply strict_eq_str in E. contradiction.
Qed.

Lemma truthy_str_true (s : string) : truthy_str s = true <-> s <> "".
Proof.
  unfold truthy_str. rewrite negb_true_iff. split.
  - intros H ->. discriminate.
  - intros H. destruct (String.eqb s "") eqn:E; [|reflexivity].
    apply String.eqb_eq in E. contradiction.
Qed.

(** The key layout [[prefix:]L:<nodeId>]. *)
Lemma listen_channel_layout (me : Server) (node : string) :
  _key me ["L"; node]
  = if truthy_str (_prefix me) then _prefix me +:+ ":" +:+ "L:" +:+ node
    else "L:" +:+ node.
Proof. unfold _key. destruct (truthy_str (_prefix me)); reflexivity. Qed.

(** The key layout [[prefix:]S:<serviceName>:<nodeId>]. *)
Lemma heartbeat_key_layout (me : Server) (name : string) :
  _key me ["S"; name; id me]
  = if truthy_str (_prefix me)
    then _prefix me +:+ ":" +:+ "S:" +:+ name +:+ ":" +:+ id me
    else "S:" +:+ name +:+ ":" +:+ id me.
Proof. unfold _key. destruct (truthy_str (_prefix me)); reflexivity. Qed.

(** ** Responses *)

(** [_responseResult] issues one PUBLISH and nothing else. *)
Lemma responseResult_world (me : Server) (w : World) (src : Envelope)
    (err : option string) (args : option (list jsval)) :
  _responseResult me w src err args
  = log_publish (_key me ["L"; e_sender src],
                 pocketResultMessage (id me) (e_id src) err args) w.
Proof. reflexivity. Qed.

(** Publishing one result per completion appends them in order and leaves
    the rest of the world alone. *)
Lemma respond_each_published (me : Server) (msg : Envelope)
    (cs : list Completion) (w : World) :
  published
    (foldl (fun w c => _responseResult me w msg (c_err c) (Some (c_results c)))
       w cs)
  = published w
    ++ map (fun c => (_key me ["L"; e_sender msg],
                      pocketResultMessage (id me) (e_id msg) (c_err c)
                        (Some (c_results c)))) cs.
Proof.
  revert w. induction cs as [|c cs IH]; intros w; simpl.
  - by rewrite app_nil_r.
  - rewrite IH. simpl. by rewrite <- app_assoc.
Qed.

Lemma respond_each_invoked (me : Server) (msg : Envelope)
    (cs : list Completion) (w : World) :
  invoked
    (foldl (fun w c => _responseResult me w msg (c_err c) (Some (c_results c)))
       w cs)
  = invoked w.
Proof.
  revert w. induction cs as [|c cs IH]; intros w; simpl; [done|].
  by rewrite IH.
Qed.

Lemma respond_each_emitted (me : Server) (msg : Envelope)
    (cs : list Completion) (w : World) :
  emitted
    (foldl (fun w c => _responseResult me w msg (c_err c) (Some (c_results c)))
       w cs)
  = emitted w.
Proof.
  revert w. induction cs as [|c cs IH]; intros w; simpl; [done|].
  by rewrite IH.
Qed.

(** What [_handleCallService] publishes and invokes, by the outcome of the
    lookup. *)
Lemma handleCallService_found (me : Server) (w : World) (msg : Envelope)
    (fn : Callee) :
  lookup_service (_services me) (prop_key (e_name msg)) = Some fn ->
  invoked (_handleCallService me w msg)
  = invoked w ++ [(prop_key (e_name msg), e_args msg)]
  /\ published (_handleCallService me w msg)
     = published w
       ++ map (fun c => (_key me ["L"; e_sender msg],
                         pocketResultMessage (id me) (e_id msg) (c_err c)
                           (Some (c_results c))))
            (calls (apply_callee fn (e_args msg))).
Proof.
  intros Hfn. unfold _handleCallService. rewrite Hfn.
  destruct (throws (apply_callee fn (e_args msg))); simpl;
    rewrite respond_each_invoked, respond_each_published; done.
Qed.

Lemma handleCallService_missing (me : Server) (w : World) (msg : Envelope) :
  lookup_service (_services me) (prop_key (e_name msg)) = None ->
  _handleCallService me w msg
  = log_publish (_key me ["L"; e_sender msg],
                 pocketResultMessage (id me) (e_id msg)
                   (Some "service handler not found") None) w.
Proof. intros Hfn. unfold _handleCallService. by rewrite Hfn. Qed.

(** A registered name is found as registered, under whatever name. *)
Lemma lookup_service_registered (services : gmap string handler)
    (name : string) (h : handler) :
  services !! name = Some h ->
  lookup_service services name = Some (Registered h).
Proof. intros H. unfold lookup_service. by rewrite H. Qed.

(** On a table whose prototype was not replaced, a name that is neither
    registered nor a function of Object.prototype is answered with the
    error and runs nothing. *)
Lemma call_unknown_name (me : Server) (w : World) (msg : Envelope) :
  e_type msg = JStr "call" ->
  _services me !! "__proto__" = None ->
  _services me !! prop_key (e_name msg) = None ->
  object_prototype (prop_key (e_name msg)) = None ->
  _handleMessage me w msg
  = log_publish (_key me ["L"; e_sender msg],
                 pocketResultMessage (id me) (e_id msg)
                   (Some "service handler not found") None) w.
Proof.
  intros Ht Hproto Hs Hp. unfold _handleMessage. rewrite Ht. simpl.
  apply handleCallService_missing. unfold lookup_service.
  by rewrite Hs, Hproto, Hp.
Qed.

(** ** Examples *)

Example key_listen : _key node_A ["L"; "B"] = "clouds:L:B".
Proof. reflexivity. Qed.

Example key_heartbeat : _key node_A ["S"; "echo"; id node_A] = "clouds:S:echo:A".
Proof. reflexivity. Qed.

Example scenario_echo :
  published (_handleMessage node_A empty_world call_echo)
  = [ ("clouds:L:B",
       {| e_type := JStr "result"; e_sender := "A"; e_id := Some "1";
          e_name := None; e_args := [JStr "hi"]; e_error := None |}) ].
Proof. vm_compute. reflexivity. Qed.

Example numbers_read :
  string_to_number "7" = Fin 7
  /\ string_to_number "2.5" = Frac 5 1
  /\ string_to_number " 3 " = Fin 3
  /\ string_to_number "1e1" = Fin 10
  /\ string_to_number "0x10" = Fin 16
  /\ string_to_number "-Infinity" = Inf true
  /\ string_to_number "0.1" = Frac 3602879701896397 55
  /\ string_to_number "9007199254740993" = Fin 9007199254740992
  /\ string_to_number "1e-400" = Fin 0
  /\ string_to_number "1e400" = Inf false
  /\ string_to_number "" = Fin 0
  /\ string_to_number "12px" = NaN
  /\ js_mul (JStr "0.1") 3 = Frac 1351079888211149 52
  /\ js_mul (JStr "0.4") 1000 = Fin 400.
Proof. vm_compute. repeat split. Qed.

Example scenario_missing_handler :
  published (_handleMessage node_A empty_world (call_named "foo"))
  = [ ("clouds:L:B",
       {| e_type := JStr "result"; e_sender := "A"; e_id := Some "1";
          e_name := None; e_args := []; e_error := Some "service handler not found" |}) ].
Proof. vm_compute. reflexivity. Qed.

Example own_channel_dispatched :
  let w := on_message (decode_as call_echo) node_A empty_world "clouds:L:A" "raw" in
  decoded w = ["raw"] /\ invoked w = [("echo", [JStr "hi"])]
  /\ length (published w) = 1%nat.
Proof. vm_compute. repeat split. Qed.

Example message_surfaced :
  emitted (_handleMessage node_A empty_world
             (pocketSendMessage "B" (JStr "ping")))
  = [ {| ev_name := "message"; ev_payload := Some ("B", [JStr "ping"]) |} ].
Proof. vm_compute. reflexivity. Qed.

Example register_resets_score :
  store (register node_bare empty_world "echo" echo None).2
    !! "clouds:S:echo:A" = Some ("0", 10%Z).
Proof. vm_compute. reflexivity. Qed.

Example timer_cleared_does_not_fire :
  timer_fires node_A (exit node_A world_two_prefixes (Some "done") None None)
  = exit node_A world_two_prefixes (Some "done") None None.
Proof. reflexivity. Qed.

(** ** Dispatch of [call] envelopes *)

(** C1, as stated, fails: a handler that throws before completing leaves
    the call without any result envelope, and a handler that completes
    twice gets two. *)
Lemma call_result_count_counterexample :
  e_type (call_named "boom") = JStr "call"
  /\ published (_handleMessage node_C empty_world (call_named "boom")) = []
  /\ length (published (_handleMessage node_C empty_world (call_named "twice")))
     = 2%nat.
Proof. vm_compute. repeat split. Qed.

(** C1, amended: for every inbound envelope of type [call], when a handler
    is registered under the call's name, that handler is invoked exactly
    once, and one result envelope carrying the call's correlation id goes to
    the sender's ListenChannel for each completion the handler makes (so
    exactly one when it completes exactly once); when the lookup of the name
    finds nothing, neither a registered handler nor an inherited function,
    exactly one result envelope, with the error, is published and nothing is
    invoked. *)
Theorem call_results_follow_completions (me : Server) (w : World)
    (msg : Envelope) :
  e_type msg = JStr "call" ->
  let w' := _handleMessage me w msg in
  let channel := _key me ["L"; e_sender msg] in
  let name := prop_key (e_name msg) in
  (forall h : handler,
      _services me !! name = Some h ->
      invoked w' = invoked w ++ [(name, e_args msg)]
      /\ published w'
         = published w
           ++ map (fun c =>
                     (channel,
                      {| e_type := JStr "result"; e_sender := id me;
                         e_id := e_id msg; e_name := None;
                         e_args := c_results c; e_error := c_err c |}))
                (calls (h (e_args msg))))
  /\ (lookup_service (_services me) name = None ->
      invoked w' = invoked w
      /\ published w'
         = published w
           ++ [(channel,
                {| e_type := JStr "result"; e_sender := id me;
                   e_id := e_id msg; e_name := None; e_args := [];
                   e_error := Some "service handler not found" |})]).
Proof.
  intros Ht w' channel name. subst w' channel name.
  unfold _handleMessage. rewrite Ht. simpl. split.
  - intros h Hh.
    apply (handleCallService_found me w msg (Registered h)).
    by apply lookup_service_registered.
  - intros Hnone. by rewrite (handleCallService_missing me w msg Hnone).
Qed.

Lemma call_results_follow_completions_witness :
  e_type call_echo = JStr "call"
  /\ _services node_A !! "echo" = Some echo
  /\ published (_handleMessage node_A empty_world call_echo)
     = [ ("clouds:L:B",
          {| e_type := JStr "result"; e_sender := "A"; e_id := Some "1";
             e_name := None; e_args := [JStr "hi"]; e_error := None |}) ].
Proof.
  split; [reflexivity|]. split; [reflexivity|].
  destruct (call_results_follow_completions node_A empty_world call_echo
              eq_refl) as [H _].
  destruct (H echo eq_refl) as [_ Hp]. rewrite Hp. reflexivity.
Defined.

(** C3 at the name [toString], which no one registered: the lookup in
    [_services] reaches Object.prototype.toString, that function is applied
    and never calls the completion callback, and no result envelope is
    published. *)
Theorem unregistered_inherited_name_unanswered :
  _services node_bare !! "toString" = None
  /\ published (_handleMessage node_bare empty_world (call_named "toString")) = []
  /\ invoked (_handleMessage node_bare empty_world (call_named "toString"))
     = [("toString", [])].
Proof. vm_compute. repeat split. Qed.

(** ** Other envelope types *)

(** C4: an envelope whose type is neither [call] nor [message] is answered
    on the sender's ListenChannel with a result envelope whose error is
    "unknown message type"; no handler is invoked and no event is emitted. *)
Theorem unknown_type_answered (me : Server) (w : World) (msg : Envelope) :
  e_type msg <> JStr "call" ->
  e_type msg <> JStr "message" ->
  let w' := _handleMessage me w msg in
  published w'
  = published w
    ++ [(_key me ["L"; e_sender msg],
         {| e_type := JStr "result"; e_sender := id me; e_id := e_id msg;
            e_name := None; e_args := [];
            e_error := Some "unknown message type" |})]
  /\ invoked w' = invoked w
  /\ emitted w' = emitted w.
Proof.
  intros Hc Hm w'. subst w'. unfold _handleMessage.
  rewrite (strict_eq_str_false _ _ Hc), (strict_eq_str_false _ _ Hm).
  done.
Qed.

Lemma unknown_type_answered_witness :
  published (_handleMessage node_A empty_world stray_result)
  = [ ("clouds:L:B",
       {| e_type := JStr "result"; e_sender := "A"; e_id := Some "9";
          e_name := None; e_args := [];
          e_error := Some "unknown message type" |}) ].
Proof.
  destruct (unknown_type_answered node_A empty_world stray_result)
    as [H _]; [discriminate | discriminate |].
  vm_compute in H. vm_compute. exact H.
Defined.

(** ** Sending *)

(** C6: [send] publishes exactly one envelope, of type [message], to the
    receiver's ListenChannel [[prefix:]L:<receiverId>], with this node's id
    as sender and the payload as the only element of [args]; nothing else
    in the world changes. *)
Theorem send_publishes_one_message (me : Server) (w : World)
    (receiver : string) (payload : jsval) (callback : option Callback) :
  send me w receiver payload callback
  = log_publish
      ((if truthy_str (_prefix me)
        then _prefix me +:+ ":" +:+ "L:" +:+ receiver
        else "L:" +:+ receiver),
       {| e_type := JStr "message"; e_sender := id me; e_id := None;
          e_name := None; e_args := [payload]; e_error := None |}) w
  /\ published (send me w receiver payload callback)
     = published w
       ++ [(_key me ["L"; receiver],
            {| e_type := JStr "message"; e_sender := id me; e_id := None;
               e_name := None; e_args := [payload]; e_error := None |})].
Proof.
  unfold send, _sendMessage, cp_publish. rewrite listen_channel_layout.
  split; reflexivity.
Qed.

(** ** Listening *)

(** C7, as stated, fails: on the acknowledgement of the subscription no
    event named "listening" is emitted. *)
Lemma subscribe_ack_event_counterexample :
  ~ (exists e : Event,
        e ∈ emitted (on_subscribe node_A empty_world "clouds:L:A" 1)
        /\ ev_name e = "listening").
Proof.
  intros [e [Hin Hname]]. vm_compute in Hin.
  apply list_elem_of_singleton in Hin. subst e. discriminate.
Qed.

(** C7, amended: when the broker acknowledges the subscription, the node
    emits the event named "listen", without arguments, to its local
    listeners, and does nothing else. *)
Theorem subscribe_ack_emits_listen (me : Server) (w : World)
    (channel : string) (count : Z) :
  on_subscribe me w channel count
  = log_emit {| ev_name := "listen"; ev_payload := None |} w
  /\ emitted (on_subscribe me w channel count)
     = emitted w ++ [ {| ev_name := "listen"; ev_payload := None |} ].
Proof. split; reflexivity. Qed.

(** C8: a raw message that arrives on a channel other than the node's own
    ListenChannel changes nothing: nothing is decoded, invoked, emitted or
    published. *)
Theorem foreign_channel_dropped (parseMessage : string -> Envelope)
    (me : Server) (w : World) (channel raw : string) :
  channel <> _key me ["L"; id me] ->
  on_message parseMessage me w channel raw = w.
Proof.
  intros Hne. unfold on_message.
  destruct (String.eqb channel (_key me ["L"; id me])) eqn:E; [|reflexivity].
  apply String.eqb_eq in E. contradiction.
Qed.

Lemma foreign_channel_dropped_witness :
  on_message (decode_as call_echo) node_A empty_world "clouds:L:B" "{}"
  = empty_world.
Proof.
  apply (foreign_channel_dropped (decode_as call_echo) node_A empty_world
           "clouds:L:B" "{}").
  vm_compute. discriminate.
Defined.

(** ** The heartbeat key *)

Lemma js_gt_fin (v : jsval) (k z : Z) :
  to_number v = Fin z -> js_gt v k = (k <? z)%Z.
Proof. intros H. unfold js_gt. by rewrite H. Qed.



Lemma cp_get_absent (w : World) (key : string) :
  store w !! key = None -> js_gt (cp_get w key) 0 = false.
Proof. intros H. unfold cp_get. by rewrite H. Qed.

(** Had the reply function been run with the server as [this], a score
    above zero would have been written back with the refreshed
    time-to-live. *)
Lemma keep_reply_bound (me : Server) (w : World) (key name v : string)
    (callback : option Callback) (t : Z) :
  to_number (_heartbeat me) = Fin t ->
  (0 < t)%Z ->
  js_gt (JStr v) 0 = true ->
  store (keep_reply me (ThisServer me) key name callback None (JStr v) w)
  = <[key := (v, (t * 2)%Z)]> (store w).
Proof.
  intros Ht Hpos Hv. unfold keep_reply. rewrite Hv. simpl.
  unfold js_mul, cp_setex. rewrite Ht.
  assert ((0 <? t * 2)%Z = true) as -> by (apply Z.ltb_lt; lia).
  destruct (_callback callback); reflexivity.
Qed.


(** C2 at a key that holds the score 7: the refresh neither rewrites the
    score nor extends its time-to-live (3 seconds stay 3, not 10); the
    reply function raises a TypeError instead. *)
Theorem keep_positive_score_not_refreshed :
  store world_score7 !! "clouds:S:echo:A" = Some ("7", 3%Z)
  /\ store (_keepServiceScore node_A world_score7 "echo" None None)
       !! "clouds:S:echo:A" = Some ("7", 3%Z)
  /\ uncaught (_keepServiceScore node_A world_score7 "echo" None None)
     = ["TypeError: this._callback is not a function"].
Proof. vm_compute. repeat split. Qed.

Example keep_absent_key_recreated :
  store (_keepServiceScore node_A empty_world "echo" None None)
    !! "clouds:S:echo:A" = Some ("0", 10%Z).
Proof. vm_compute. reflexivity. Qed.

(** ** The constructor *)

Lemma not_above_zero (v : jsval) :
  (v = JUndefined \/ to_number v = NaN \/ to_number v = Fin 0
   \/ num_lt (to_number v) 0 = true) ->
  js_gt v 0 = false.
Proof.
  unfold js_gt. intros [->|[H|[H|H]]]; [done | by rewrite H | by rewrite H |].
  destruct (to_number v) as [|z|m p|[|]]; simpl in *; try done.
  - apply Z.ltb_lt in H. apply Z.ltb_ge. lia.
  - apply Z.ltb_lt in H. apply Z.ltb_ge. lia.
Qed.

(** What [_resetServiceScore] leaves under the heartbeat key: when it
    writes, the score is 0 and the time-to-live is twice the interval. *)
Lemma resetServiceScore_written (me : Server) (w : World) (name : string)
    (callback : option Callback) (v : string) (ttl : Z) :
  store (_resetServiceScore me w name callback) !! _key me ["S"; name; id me]
  = Some (v, ttl) ->
  store w !! _key me ["S"; name; id me] <> Some (v, ttl) ->
  v = "0" /\ js_mul (_heartbeat me) 2 = Fin ttl /\ (0 < ttl)%Z.
Proof.
  unfold _resetServiceScore, cp_setex.
  destruct (js_mul (_heartbeat me) 2) as [|t|m p|i];
    try (destruct callback; simpl; intros H1 H2; congruence).
  destruct (0 <? t)%Z eqn:E;
    [|destruct callback; simpl; intros H1 H2; congruence].
  apply Z.ltb_lt in E. intros H1 _.
  assert (Some ("0", t) = Some (v, ttl)) as Heq.
  { rewrite <- H1. destruct callback; simpl; by rewrite lookup_insert_eq. }
  inversion Heq. by subst.
Qed.

(** C9: when the heartbeat option is absent, not a number, zero or
    negative, the constructor takes the default interval; and, the default
    being above zero, the interval it keeps is always above zero.  The
    timer is started with 1000 times that interval, as [setInterval] takes
    it, and whenever [_resetServiceScore] writes the heartbeat key, the
    time-to-live is twice that interval and above zero. *)
Theorem constructor_heartbeat_positive (define_heartbeat : jsval)
    (define_redisPrefix uid : string) (options : option Options) :
  js_gt define_heartbeat 0 = true ->
  let h := match options with Some o => heartbeat o | None => JUndefined end in
  let me := (CloudsServer define_heartbeat define_redisPrefix uid options).1 in
  let w := (CloudsServer define_heartbeat define_redisPrefix uid options).2 in
  ((h = JUndefined \/ to_number h = NaN \/ to_number h = Fin 0
    \/ num_lt (to_number h) 0 = true) ->
   _heartbeat me = define_heartbeat)
  /\ js_gt (_heartbeat me) 0 = true
  /\ timer w = Some (setInterval_delay (js_mul (_heartbeat me) 1000))
  /\ forall (w0 : World) (name : string) (cb : option Callback)
            (v : string) (ttl : Z),
       store (_resetServiceScore me w0 name cb) !! _key me ["S"; name; id me]
       = Some (v, ttl) ->
       store w0 !! _key me ["S"; name; id me] <> Some (v, ttl) ->
       v = "0" /\ js_mul (_heartbeat me) 2 = Fin ttl /\ (0 < ttl)%Z.
Proof.
  intros Hdef h me w.
  assert (Hcases :
    (js_gt h 0 = false /\ _heartbeat me = define_heartbeat
       /\ timer w = Some (setInterval_delay (js_mul define_heartbeat 1000)))
    \/ (js_gt h 0 = true /\ _heartbeat me = h
          /\ timer w = Some (setInterval_delay (js_mul h 1000)))).
  { subst h me w. unfold CloudsServer.
    destruct options as [o|]; simpl.
    - destruct (js_gt (heartbeat o) 0) eqn:E; simpl; [right|left]; done.
    - left. done. }
  split; [|split; [|split]].
  - intros Hbad. apply not_above_zero in Hbad.
    destruct Hcases as [(_ & Hme & _)|(Hgt & _ & _)]; [exact Hme | congruence].
  - destruct Hcases as [(_ & -> & _)|(Hgt & -> & _)]; done.
  - destruct Hcases as [(_ & -> & Htm)|(_ & -> & Htm)]; done.
  - intros w0 name cb v ttl. apply resetServiceScore_written.
Qed.

Lemma constructor_heartbeat_positive_witness :
  js_gt (JNum (Fin 5)) 0 = true
  /\ _heartbeat
       (CloudsServer (JNum (Fin 5)) "clouds" "A"
          (Some {| heartbeat := JNum (Fin (-3)); redis_prefix := "" |})).1
     = JNum (Fin 5).
Proof.
  split; [reflexivity|].
  apply (constructor_heartbeat_positive (JNum (Fin 5)) "clouds" "A"
           (Some {| heartbeat := JNum (Fin (-3)); redis_prefix := "" |})).
  - reflexivity.
  - right. right. right. reflexivity.
Defined.

(** A fraction and a numeric text above zero are kept as given; a fraction
    whose double is not an integer gives a time-to-live the broker does not
    take; a text that is not a number gives the default. *)
Example constructor_keeps_fraction :
  _heartbeat (CloudsServer (JNum (Fin 5)) "clouds" "A"
                (Some {| heartbeat := JStr "2.5"; redis_prefix := "" |})).1
  = JStr "2.5"
  /\ timer (CloudsServer (JNum (Fin 5)) "clouds" "A"
              (Some {| heartbeat := JStr "2.5"; redis_prefix := "" |})).2
     = Some (Fin 2500)
  /\ js_mul (JNum (Frac 3602879701896397 53)) 2 = Frac 3602879701896397 52
  /\ _heartbeat (CloudsServer (JNum (Fin 5)) "clouds" "A"
                   (Some {| heartbeat := JStr "soon"; redis_prefix := "" |})).1
     = JNum (Fin 5).
Proof. vm_compute. repeat split. Qed.

(** ** Patterns *)

Lemma glob_star_unfold (q s : list ascii) :
  glob_match ("*"%char :: q) s
  = glob_match q s
    || match s with [] => false | _ :: s' => glob_match ("*"%char :: q) s' end.
Proof. destruct s; reflexivity. Qed.

Lemma glob_star (q s : list ascii) :
  glob_match ("*"%char :: q) s = true
  <-> exists x r, s = x ++ r /\ glob_match q r = true.
Proof.
  induction s as [|d s IH]; rewrite glob_star_unfold.
  - rewrite orb_false_r. split.
    + intros H. by exists [], [].
    + intros (x & r & Hs & Hr). symmetry in Hs.
      apply app_eq_nil in Hs. destruct Hs as [_ ->]. exact Hr.
  - rewrite orb_true_iff, IH. split.
    + intros [H|(x & r & Hs & Hr)].
      * by exists [], (d :: s).
      * exists (d :: x), r. split; [by rewrite Hs | exact Hr].
    + intros (x & r & Hs & Hr). destruct x as [|c x]; simpl in Hs.
      * left. by rewrite Hs.
      * right. inversion Hs. by exists x, r.
Qed.

Lemma glob_plain_char (c : ascii) (q s : list ascii) :
  plain_char c = true ->
  glob_match (c :: q) s = true
  <-> exists r, s = c :: r /\ glob_match q r = true.
Proof.
  unfold plain_char. rewrite negb_true_iff, !orb_false_iff.
  intros [[[Hs Hq] _] _]. simpl. rewrite Hs, Hq. destruct s as [|d s].
  - split; [discriminate | intros (r & Hr & _); discriminate].
  - rewrite andb_true_iff, Ascii.eqb_eq. split.
    + intros [-> H]. by exists s.
    + intros (r & Hr & H). inversion Hr. by subst.
Qed.

Lemma glob_plain_app (p q s : list ascii) :
  forallb plain_char p = true ->
  glob_match (p ++ q) s = true
  <-> exists r, s = p ++ r /\ glob_match q r = true.
Proof.
  revert s. induction p as [|c p IH]; intros s Hp; simpl in *.
  - split; [intros H; by exists s | by intros (r & -> & H)].
  - apply andb_true_iff in Hp. destruct Hp as [Hc Hp].
    rewrite (glob_plain_char c (p ++ q) s Hc). split.
    + intros (r & -> & H). apply (IH r Hp) in H.
      destruct H as (r' & -> & H). by exists r'.
    + intros (r & -> & H). exists (p ++ r). split; [done|].
      apply (IH (p ++ r) Hp). by exists r.
Qed.

Lemma glob_star_only (s : list ascii) : glob_match ["*"%char] s = true.
Proof. apply glob_star. exists s, []. by rewrite app_nil_r. Qed.

(** A pattern [a*b*] with [a] and [b] plain matches the texts that start
    with [a] and have [b] somewhere after it. *)
Lemma glob_prefix_infix (a b s : list ascii) :
  forallb plain_char a = true ->
  forallb plain_char b = true ->
  glob_match (a ++ "*"%char :: b ++ ["*"%char]) s = true
  <-> exists x y, s = a ++ x ++ b ++ y.
Proof.
  intros Ha Hb. rewrite (glob_plain_app a _ s Ha). split.
  - intros (r & -> & H). apply glob_star in H.
    destruct H as (x & r' & -> & H).
    apply (glob_plain_app b _ r' Hb) in H. destruct H as (y & -> & _).
    by exists x, y.
  - intros (x & y & ->). exists (x ++ b ++ y). split; [done|].
    apply glob_star. exists x, (b ++ y). split; [done|].
    apply (glob_plain_app b _ _ Hb). exists y. split; [done|].
    apply glob_star_only.
Qed.

Lemma list_ascii_of_string_app (a b : string) :
  list_ascii_of_string (a +:+ b)
  = list_ascii_of_string a ++ list_ascii_of_string b.
Proof. induction a as [|c a IH]; simpl; [done | by rewrite IH]. Qed.

Lemma list_ascii_of_string_inj (a b : string) :
  list_ascii_of_string a = list_ascii_of_string b -> a = b.
Proof.
  intros H. rewrite <- (string_of_list_ascii_of_string a),
    <- (string_of_list_ascii_of_string b). by rewrite H.
Qed.

Lemma plain_app (a b : string) : plain a -> plain b -> plain (a +:+ b).
Proof.
  unfold plain. rewrite list_ascii_of_string_app, forallb_app.
  intros -> ->. reflexivity.
Qed.

(** The keys [exit] asks for when a prefix is set: those that start with
    the prefix and a colon and have the node's id after it. *)
Lemma exit_pattern_prefixed (me : Server) (k : string) :
  truthy_str (_prefix me) = true ->
  plain (_prefix me) ->
  plain (id me) ->
  key_matches (exit_pattern me) k = true
  <-> exists x y : string, k = _prefix me +:+ ":" +:+ x +:+ id me +:+ y.
Proof.
  intros Ht Hp Hi. unfold key_matches, exit_pattern, _key. rewrite Ht.
  assert (list_ascii_of_string
            (String.concat ":" [_prefix me; "*" +:+ id me +:+ "*"])
          = list_ascii_of_string (_prefix me +:+ ":")
            ++ "*"%char :: list_ascii_of_string (id me) ++ ["*"%char]) as ->.
  { change (String.concat ":" [_prefix me; "*" +:+ id me +:+ "*"])
      with (_prefix me +:+ ":" +:+ "*" +:+ id me +:+ "*").
    rewrite !list_ascii_of_string_app. simpl. by rewrite <- app_assoc. }
  rewrite glob_prefix_infix; [| by apply (plain_app _ ":") | exact Hi].
  split.
  - intros (x & y & H).
    exists (string_of_list_ascii x), (string_of_list_ascii y).
    apply list_ascii_of_string_inj.
    rewrite H, !list_ascii_of_string_app, !list_ascii_of_string_of_list_ascii.
    simpl. by rewrite <- !app_assoc.
  - intros (x & y & ->).
    exists (list_ascii_of_string x), (list_ascii_of_string y).
    rewrite !list_ascii_of_string_app. simpl. by rewrite <- !app_assoc.
Qed.

(** Without a prefix: the keys that contain the node's id. *)
Lemma exit_pattern_bare (me : Server) (k : string) :
  truthy_str (_prefix me) = false ->
  plain (id me) ->
  key_matches (exit_pattern me) k = true
  <-> exists x y : string, k = x +:+ id me +:+ y.
Proof.
  intros Ht Hi. unfold key_matches, exit_pattern, _key. rewrite Ht.
  assert (list_ascii_of_string (String.concat ":" ["*" +:+ id me +:+ "*"])
          = [] ++ "*"%char :: list_ascii_of_string (id me) ++ ["*"%char]) as ->.
  { change (String.concat ":" ["*" +:+ id me +:+ "*"])
      with ("*" +:+ id me +:+ "*").
    by rewrite !list_ascii_of_string_app. }
  rewrite glob_prefix_infix; [| done | exact Hi].
  split.
  - intros (x & y & H).
    exists (string_of_list_ascii x), (string_of_list_ascii y).
    apply list_ascii_of_string_inj.
    by rewrite H, !list_ascii_of_string_app, !list_ascii_of_string_of_list_ascii.
  - intros (x & y & ->).
    exists (list_ascii_of_string x), (list_ascii_of_string y).
    by rewrite !list_ascii_of_string_app.
Qed.

(** ** Teardown *)

Lemma cp_keys_elem (w : World) (pattern k : string) :
  k ∈ cp_keys w pattern
  <-> key_matches pattern k = true /\ is_Some (store w !! k).
Proof.
  unfold cp_keys. rewrite list_elem_of_filter, list_elem_of_fmap. split.
  - intros [Hm ([k' v] & -> & Hin)]. split; [exact Hm|].
    apply elem_of_map_to_list in Hin. by exists v.
  - intros [Hm [v Hv]]. split; [exact Hm|].
    exists (k, v). split; [done|]. by apply elem_of_map_to_list.
Qed.

(** After the batch delete of what KEYS returned, a key is gone if it
    matched the pattern and is as before if it did not. *)
Lemma cp_del_keys_lookup (w : World) (pattern k : string) :
  store (cp_del w (cp_keys w pattern)) !! k
  = if key_matches pattern k then None else store w !! k.
Proof.
  unfold cp_del. simpl.
  destruct (key_matches pattern k) eqn:Hm.
  - destruct (store w !! k) as [v|] eqn:Hk.
    + apply lookup_foldr_delete, cp_keys_elem. split; [done|]. by exists v.
    + destruct (foldr delete (store w) (cp_keys w pattern) !! k) as [v|] eqn:E;
        [|done].
      apply lookup_foldr_delete_Some in E. destruct E as [_ E]. congruence.
  - apply lookup_foldr_delete_not_elem_of. rewrite cp_keys_elem.
    intros [H _]. congruence.
Qed.

Lemma cp_keys_nil (w : World) (pattern k : string) :
  cp_keys w pattern = [] ->
  store w !! k = if key_matches pattern k then None else store w !! k.
Proof.
  intros Hnil. destruct (key_matches pattern k) eqn:Hm; [|done].
  destruct (store w !! k) as [v|] eqn:Hk; [|done].
  assert (k ∈ cp_keys w pattern) as Hin
    by (apply cp_keys_elem; split; [done | by exists v]).
  rewrite Hnil in Hin. by apply not_elem_of_nil in Hin.
Qed.

Lemma length_positive_nonempty {A : Type} (l : list A) :
  (0 <? length l)%nat = true <-> l <> [].
Proof.
  destruct l; simpl; split; try done.
Qed.

(** The key space after [exit], on the path where nothing fails. *)
Lemma exit_success_store (me : Server) (w : World)
    (callback : option Callback) (del_err : option string) (k : string) :
  (del_err = None \/ cp_keys w (exit_pattern me) = []) ->
  store (exit me w callback None del_err) !! k
  = if key_matches (exit_pattern me) k then None else store w !! k.
Proof.
  intros H. unfold exit.
  destruct (0 <? length (cp_keys w (exit_pattern me)))%nat eqn:E.
  - apply length_positive_nonempty in E.
    destruct H as [->|H]; [|contradiction].
    apply cp_del_keys_lookup.
  - simpl. apply cp_keys_nil.
    destruct (cp_keys w (exit_pattern me)); [done | discriminate].
Qed.

(** Whatever happens, [exit] leaves a key that does not match its pattern
    as it was. *)
Lemma exit_frame (me : Server) (w : World) (callback : option Callback)
    (keys_err del_err : option string) (k : string) :
  key_matches (exit_pattern me) k = false ->
  store (exit me w callback keys_err del_err) !! k = store w !! k.
Proof.
  intros Hm. unfold exit.
  destruct keys_err as [e|]; [by destruct callback|].
  destruct (0 <? length (cp_keys w (exit_pattern me)))%nat; [|done].
  destruct del_err as [e|]; [by destruct callback|].
  simpl. change (foldr delete (store w) (cp_keys w (exit_pattern me)))
    with (store (cp_del w (cp_keys w (exit_pattern me)))).
  by rewrite cp_del_keys_lookup, Hm.
Qed.

(** On the path where nothing fails the callback of [exit] is obtained
    from [_callback] but not called. *)
Lemma exit_success_silent (me : Server) (w : World)
    (callback : option Callback) (del_err : option string) :
  (del_err = None \/ cp_keys w (exit_pattern me) = []) ->
  notified (exit me w callback None del_err) = notified w.
Proof.
  intros H. unfold exit.
  destruct (0 <? length (cp_keys w (exit_pattern me)))%nat eqn:E; [|done].
  apply length_positive_nonempty in E. by destruct H as [->|H].
Qed.

(** C5, as stated, fails: after an [exit] that completed, a key that
    contains the node's id but lies under another prefix is still there. *)
Lemma exit_foreign_prefix_counterexample :
  let w' := exit node_A world_two_prefixes (Some "done") None None in
  timer w' = None /\ cp_open w' = false /\ cs_open w' = false
  /\ "other:S:echo:A" = "other:S:echo:" +:+ id node_A +:+ ""
  /\ store w' !! "other:S:echo:A" = Some ("0", 10%Z).
Proof. vm_compute. repeat split. Qed.

(** C5, amended: [exit] asks the broker for the keys that match the
    pattern [[prefix:]*<id>*] built by the key function and, if there are
    any, deletes them in one batch; it then clears the heartbeat timer and
    closes both connections.  A failure of the scan or of the deletion is
    passed to the callback of [exit] and nothing further is done: the keys,
    the timer and the connections stay as they were.  When nothing fails,
    no key matching the pattern remains, every other key is as before, the
    timer is cleared and both connections are closed. *)
Theorem exit_teardown (me : Server) (w : World) (cb : Callback)
    (keys_err del_err : option string) :
  let pattern := exit_pattern me in
  let w' := exit me w (Some cb) keys_err del_err in
  pattern = (if truthy_str (_prefix me)
             then _prefix me +:+ ":" +:+ "*" +:+ id me +:+ "*"
             else "*" +:+ id me +:+ "*")
  /\ (forall e, keys_err = Some e -> w' = log_notify (cb, Some e) w)
  /\ (forall e, keys_err = None -> cp_keys w pattern <> [] ->
                del_err = Some e -> w' = log_notify (cb, Some e) w)
  /\ (keys_err = None -> (del_err = None \/ cp_keys w pattern = []) ->
      (forall k, store w' !! k
                 = if key_matches pattern k then None else store w !! k)
      /\ timer w' = None /\ cp_open w' = false /\ cs_open w' = false).
Proof.
  intros pattern w'. subst pattern w'. split; [|split; [|split]].
  - unfold exit_pattern, _key. destruct (truthy_str (_prefix me)); reflexivity.
  - intros e ->. reflexivity.
  - intros e -> Hne ->. unfold exit.
    apply length_positive_nonempty in Hne. by rewrite Hne.
  - intros -> Hok. split.
    + intros k. by apply exit_success_store.
    + unfold exit.
      destruct (0 <? length (cp_keys w (exit_pattern me)))%nat eqn:E; [|done].
      apply length_positive_nonempty in E. by destruct Hok as [->|Hok].
Qed.

Lemma exit_teardown_witness :
  let w' := exit node_A world_two_prefixes (Some "done") None None in
  store w' !! "clouds:S:echo:A" = None
  /\ timer w' = None /\ cp_open w' = false /\ cs_open w' = false.
Proof.
  destruct (exit_teardown node_A world_two_prefixes "done" None None)
    as (_ & _ & _ & H).
  destruct (H eq_refl (or_introl eq_refl)) as (Hk & Ht & Hp & Hs).
  split; [|by repeat split].
  rewrite Hk. reflexivity.
Defined.

(** C10, as stated, fails: with the prefix [cl?uds] a successful [exit]
    deletes [clouds:S:echo:A], a key that does not start with the node's
    prefix; with the prefix [clouds] it deletes [clouds:test:S:echo:A], a
    key with the node's id under the other prefix [clouds:test]. *)
Lemma exit_other_prefix_counterexample :
  (forall r : string, "clouds:S:echo:A" <> _prefix node_wild +:+ r)
  /\ store world_nested !! "clouds:S:echo:A" = Some ("0", 10%Z)
  /\ store (exit node_wild world_nested (Some "done") None None)
       !! "clouds:S:echo:A" = None
  /\ store world_nested !! "clouds:test:S:echo:A" = Some ("0", 10%Z)
  /\ store (exit node_A world_nested (Some "done") None None)
       !! "clouds:test:S:echo:A" = None.
Proof.
  split; [intros r H; discriminate H|]. vm_compute. repeat split.
Qed.

(** C10, amended: the pattern [exit] scans with is built by the key
    function and so carries the prefix; the broker reads it as a pattern.
    With a prefix set, and no pattern character in the prefix or in the
    node's id, the keys it matches are those that start with the prefix and
    a colon and contain the node's id after it; on the path where nothing
    fails these are deleted; a key that is not of this form, such as one
    with the same node id under a prefix that does not begin with this
    node's prefix and a colon, is left as it was whatever the outcome. *)
Theorem exit_keeps_other_prefixes (me : Server) (w : World)
    (callback : option Callback) (keys_err del_err : option string)
    (k : string) :
  truthy_str (_prefix me) = true ->
  plain (_prefix me) ->
  plain (id me) ->
  let w' := exit me w callback keys_err del_err in
  let under_prefix :=
    exists x y : string, k = _prefix me +:+ ":" +:+ x +:+ id me +:+ y in
  exit_pattern me = _prefix me +:+ ":" +:+ "*" +:+ id me +:+ "*"
  /\ (k ∈ cp_keys w (exit_pattern me)
      <-> is_Some (store w !! k) /\ under_prefix)
  /\ (~ under_prefix -> store w' !! k = store w !! k)
  /\ (keys_err = None -> del_err = None -> under_prefix ->
      store w' !! k = None).
Proof.
  intros Ht Hp Hi w' under_prefix. subst w' under_prefix.
  pose proof (exit_pattern_prefixed me k Ht Hp Hi) as Hpat.
  split; [|split; [|split]].
  - unfold exit_pattern, _key. by rewrite Ht.
  - rewrite cp_keys_elem, Hpat. tauto.
  - intros Hn. apply exit_frame.
    destruct (key_matches (exit_pattern me) k) eqn:E; [|done].
    exfalso. by apply Hn, Hpat.
  - intros -> -> Hu. apply Hpat in Hu.
    rewrite exit_success_store by (by left). by rewrite Hu.
Qed.

Lemma exit_keeps_other_prefixes_witness :
  truthy_str (_prefix node_A) = true
  /\ plain (_prefix node_A)
  /\ plain (id node_A)
  /\ store (exit node_A world_two_prefixes (Some "done") None None)
       !! "other:S:echo:A"
     = store world_two_prefixes !! "other:S:echo:A".
Proof.
  split; [reflexivity|]. split; [reflexivity|]. split; [reflexivity|].
  apply (exit_keeps_other_prefixes node_A world_two_prefixes (Some "done")
           None None "other:S:echo:A"); try reflexivity.
  intros (x & y & H). discriminate H.
Defined.

(** * Further properties of lib/server.js *)

(** ** Keys and channels *)

Lemma append_inj_l (a x y : string) : a +:+ x = a +:+ y -> x = y.
Proof.
  intros H. apply list_ascii_of_string_inj.
  apply (f_equal list_ascii_of_string) in H.
  rewrite !list_ascii_of_string_app in H. by apply app_inv_head in H.
Qed.

Lemma append_inj_r (x y a : string) : x +:+ a = y +:+ a -> x = y.
Proof.
  intros H. apply list_ascii_of_string_inj.
  apply (f_equal list_ascii_of_string) in H.
  rewrite !list_ascii_of_string_app in H. by apply app_inv_tail in H.
Qed.

Lemma heartbeat_key_inj (me : Server) (n1 n2 : string) :
  _key me ["S"; n1; id me] = _key me ["S"; n2; id me] -> n1 = n2.
Proof.
  rewrite !heartbeat_key_layout. destruct (truthy_str (_prefix me)); intros H.
  - do 3 apply append_inj_l in H. by apply append_inj_r in H.
  - apply append_inj_l in H. by apply append_inj_r in H.
Qed.

(** X1: on one node, two different receivers have two different
    ListenChannels: what is sent to one is never published on the channel
    of another. *)
Theorem listen_channel_injective (me : Server) (a b : string) :
  a <> b -> _key me ["L"; a] <> _key me ["L"; b].
Proof.
  intros Hne H. apply Hne. rewrite !listen_channel_layout in H.
  destruct (truthy_str (_prefix me)).
  - by do 3 apply append_inj_l in H.
  - by apply append_inj_l in H.
Qed.

Lemma listen_channel_injective_witness :
  "B" <> "C" /\ _key node_A ["L"; "B"] <> _key node_A ["L"; "C"].
Proof.
  split; [discriminate|].
  apply (listen_channel_injective node_A "B" "C"). discriminate.
Defined.

(** X2: on one node, two different service names have two different
    heartbeat keys, and no heartbeat key is the ListenChannel of any
    receiver. *)
Theorem heartbeat_keys_separate (me : Server) (n1 n2 receiver : string) :
  n1 <> n2 ->
  _key me ["S"; n1; id me] <> _key me ["S"; n2; id me]
  /\ _key me ["S"; n1; id me] <> _key me ["L"; receiver].
Proof.
  intros Hne. split.
  - intros H. by apply Hne, (heartbeat_key_inj me).
  - rewrite heartbeat_key_layout, listen_channel_layout.
    destruct (truthy_str (_prefix me)); intros H.
    + do 2 apply append_inj_l in H. discriminate H.
    + discriminate H.
Qed.

Lemma heartbeat_keys_separate_witness :
  "echo" <> "add"
  /\ _key node_A ["S"; "echo"; id node_A] <> _key node_A ["S"; "add"; id node_A].
Proof.
  split; [discriminate|].
  apply (heartbeat_keys_separate node_A "echo" "add" "B"). discriminate.
Defined.

(** X3: for one and the same receiver id, two nodes whose prefixes differ
    (one of them possibly empty) build two different ListenChannel
    names. *)
Theorem listen_channel_prefix_separates (a b : Server) (receiver : string) :
  _prefix a <> _prefix b ->
  _key a ["L"; receiver] <> _key b ["L"; receiver].
Proof.
  intros Hne H. apply Hne. rewrite !listen_channel_layout in H.
  destruct (truthy_str (_prefix a)) eqn:Ea, (truthy_str (_prefix b)) eqn:Eb.
  - change (_prefix a +:+ ":" +:+ "L:" +:+ receiver)
      with (_prefix a +:+ (":L:" +:+ receiver)) in H.
    change (_prefix b +:+ ":" +:+ "L:" +:+ receiver)
      with (_prefix b +:+ (":L:" +:+ receiver)) in H.
    by apply append_inj_r in H.
  - exfalso. apply (f_equal list_ascii_of_string) in H.
    rewrite !list_ascii_of_string_app in H.
    apply (f_equal (@length ascii)) in H. rewrite !length_app in H.
    simpl in H. lia.
  - exfalso. apply (f_equal list_ascii_of_string) in H.
    rewrite !list_ascii_of_string_app in H.
    apply (f_equal (@length ascii)) in H. rewrite !length_app in H.
    simpl in H. lia.
  - unfold truthy_str in Ea, Eb. apply negb_false_iff in Ea, Eb.
    apply String.eqb_eq in Ea, Eb. congruence.
Qed.

Lemma listen_channel_prefix_separates_witness :
  _prefix node_A <> "other"
  /\ _key node_A ["L"; "B"]
     <> _key {| id := "Z"; _heartbeat := JNum (Fin 5); _prefix := "other";
                _services := ∅ |} ["L"; "B"].
Proof.
  split; [discriminate|].
  apply (listen_channel_prefix_separates node_A
           {| id := "Z"; _heartbeat := JNum (Fin 5); _prefix := "other";
              _services := ∅ |} "B").
  discriminate.
Defined.

(** ** Registration *)



(** X4: on a table whose prototype was not replaced, after
    [register(name, handle)] with a name other than [__proto__] a lookup of
    [name] finds [handle], whether the name was registered before,
    inherited, or unknown; every other name resolves as before, and the
    node's id, prefix and heartbeat interval are unchanged. *)
Theorem register_installs_handler (me : Server) (w : World)
    (name other : string) (handle : handler) (callback : option Callback) :
  _services me !! "__proto__" = None ->
  name <> "__proto__" ->
  other <> name ->
  let me' := (register me w name handle callback).1 in
  lookup_service (_services me') name = Some (Registered handle)
  /\ lookup_service (_services me') other = lookup_service (_services me) other
  /\ id me' = id me /\ _prefix me' = _prefix me
  /\ _heartbeat me' = _heartbeat me.
Proof.
  intros _ Hproto Hne me'. subst me'. simpl. unfold lookup_service.
  rewrite lookup_insert_eq, !lookup_insert_ne by done. done.
Qed.

Lemma register_installs_handler_witness :
  _services node_A !! "__proto__" = None
  /\ "toString" <> "__proto__"
  /\ "echo" <> "toString"
  /\ lookup_service
       (_services (register node_A empty_world "toString" boom None).1)
       "toString" = Some (Registered boom).
Proof.
  split; [reflexivity|]. split; [discriminate|]. split; [discriminate|].
  apply (register_installs_handler node_A empty_world "toString" "echo" boom
           None); [reflexivity | discriminate | discriminate].
Defined.

(** A handler assigned to [__proto__] becomes the prototype of the table:
    it is found under [__proto__], it is not an own property, and names
    such as [call] now resolve to inherited functions. *)
Example register_proto :
  let me' := (register node_bare empty_world "__proto__" echo None).1 in
  lookup_service (_services me') "__proto__" = Some (Registered echo)
  /\ own_keys (_services me') = []
  /\ lookup_service (_services me') "call" = Some (Inherited BFunctionCall)
  /\ lookup_service (_services node_bare) "call" = None.
Proof. vm_compute. repeat split. Qed.





(** ** Heartbeat *)














(** With a score above zero on one service, the TypeError of its refresh
    ends the heartbeat. *)
Example keepHeartbeat_raises_once :
  uncaught (_keepHeartbeat node_A world_score7)
  = ["TypeError: this._callback is not a function"]
  /\ store (_keepHeartbeat node_A world_score7) !! "clouds:S:echo:A"
     = Some ("7", 3%Z).
Proof. vm_compute. repeat split. Qed.



(** ** Dispatch *)

Lemma respond_each_frame (me : Server) (msg : Envelope)
    (cs : list Completion) (w : World) :
  let w' :=
    foldl (fun w c => _responseResult me w msg (c_err c) (Some (c_results c)))
      w cs in
  store w' = store w /\ timer w' = timer w /\ cp_open w' = cp_open w
  /\ cs_open w' = cs_open w /\ subscribed w' = subscribed w
  /\ notified w' = notified w /\ uncaught w' = uncaught w.
Proof.
  revert w. induction cs as [|c cs IH]; intros w; simpl; [done|].
  destruct (IH (_responseResult me w msg (c_err c) (Some (c_results c))))
    as (-> & -> & -> & -> & -> & -> & ->).
  done.
Qed.

(** X10: an envelope of type [message] is handed to the local listeners
    as one "message" event carrying the sender and the arguments; no
    answer is published and no handler is invoked. *)
Theorem message_envelope_emitted (me : Server) (w : World) (msg : Envelope) :
  e_type msg = JStr "message" ->
  let w' := _handleMessage me w msg in
  emitted w'
  = emitted w
    ++ [ {| ev_name := "message";
            ev_payload := Some (e_sender msg, e_args msg) |} ]
  /\ published w' = published w
  /\ invoked w' = invoked w.
Proof. intros Ht w'. subst w'. unfold _handleMessage. by rewrite Ht. Qed.

Lemma message_envelope_emitted_witness :
  e_type (pocketSendMessage "B" (JStr "ping")) = JStr "message"
  /\ published (_handleMessage node_A empty_world
                  (pocketSendMessage "B" (JStr "ping"))) = [].
Proof.
  split; [reflexivity|].
  apply (message_envelope_emitted node_A empty_world
           (pocketSendMessage "B" (JStr "ping")) eq_refl).
Defined.

(** X11: whatever envelope comes in, handling it leaves the broker's key
    space, the heartbeat timer, both connections and the subscriptions as
    they were, and calls no callback of the node's user: an envelope can
    only cause publishes, events, handler runs and uncaught exceptions. *)
Theorem handleMessage_frame (me : Server) (w : World) (msg : Envelope) :
  let w' := _handleMessage me w msg in
  store w' = store w /\ timer w' = timer w /\ cp_open w' = cp_open w
  /\ cs_open w' = cs_open w /\ subscribed w' = subscribed w
  /\ notified w' = notified w.
Proof.
  intros w'. subst w'. unfold _handleMessage.
  destruct (strict_eq (e_type msg) (JStr "call")).
  - unfold _handleCallService.
    destruct (lookup_service (_services me) (prop_key (e_name msg)))
      as [fn|]; [|done].
    destruct (respond_each_frame me msg (calls (apply_callee fn (e_args msg)))
                (log_invoke (prop_key (e_name msg), e_args msg) w))
      as (Hs & Ht & Hp & Hc & Hb & Hn & _).
    destruct (throws (apply_callee fn (e_args msg))); simpl;
      rewrite Hs, Ht, Hp, Hc, Hb, Hn; done.
  - destruct (strict_eq (e_type msg) (JStr "message")); done.
Qed.

(** X12: what [send] on node [a] publishes for receiver [b] arrives on the
    channel [b] listens on when both nodes use the same prefix; once
    decoded, [b] emits one "message" event with [a]'s id and the payload
    as the only argument, and answers nothing. *)
Theorem send_then_receive (parseMessage : string -> Envelope)
    (a b : Server) (wa wb : World) (payload : jsval)
    (callback : option Callback) (raw : string) :
  _prefix a = _prefix b ->
  parseMessage raw = pocketSendMessage (id a) payload ->
  published (send a wa (id b) payload callback)
  = published wa
    ++ [(_key b ["L"; id b], pocketSendMessage (id a) payload)]
  /\ emitted (on_message parseMessage b wb (_key b ["L"; id b]) raw)
     = emitted wb
       ++ [ {| ev_name := "message";
               ev_payload := Some (id a, [payload]) |} ]
  /\ published (on_message parseMessage b wb (_key b ["L"; id b]) raw)
     = published wb.
Proof.
  intros Hp Hraw. split; [|split].
  - unfold send, _sendMessage, cp_publish, _key. by rewrite Hp.
  - unfold on_message. rewrite String.eqb_refl, Hraw. reflexivity.
  - unfold on_message. rewrite String.eqb_refl, Hraw. reflexivity.
Qed.

Lemma send_then_receive_witness :
  _prefix node_A = _prefix node_C
  /\ emitted (on_message (decode_as (pocketSendMessage "A" (JStr "ping")))
                node_C empty_world "clouds:L:C" "raw")
     = [ {| ev_name := "message";
            ev_payload := Some ("A", [JStr "ping"]) |} ].
Proof.
  split; [reflexivity|].
  apply (send_then_receive (decode_as (pocketSendMessage "A" (JStr "ping")))
           node_A node_C empty_world empty_world (JStr "ping") None "raw"
           eq_refl eq_refl).
Defined.

(** X13: the answer to an envelope of unknown type is itself an envelope
    that the sender, if it is a node of this kind with the same prefix,
    answers in the same way: the error reply of node [a] to node [b] makes
    [b] publish an "unknown message type" reply on [a]'s ListenChannel. *)
Theorem error_reply_bounces (a b : Server) (wa wb : World) (msg : Envelope) :
  _prefix a = _prefix b ->
  e_type msg <> JStr "call" ->
  e_type msg <> JStr "message" ->
  e_sender msg = id b ->
  let reply :=
    pocketResultMessage (id a) (e_id msg) (Some "unknown message type") None in
  published (_handleMessage a wa msg)
  = published wa ++ [(_key b ["L"; id b], reply)]
  /\ published (_handleMessage b wb reply)
     = published wb
       ++ [(_key a ["L"; id a],
            pocketResultMessage (id b) (e_id msg)
              (Some "unknown message type") None)].
Proof.
  intros Hp Hc Hm Hs reply. subst reply. split.
  - unfold _handleMessage.
    rewrite (strict_eq_str_false _ _ Hc), (strict_eq_str_false _ _ Hm).
    unfold _responseResult, cp_publish, _key. by rewrite Hp, Hs.
  - unfold _handleMessage. simpl.
    unfold _responseResult, cp_publish, _key. by rewrite Hp.
Qed.

Lemma error_reply_bounces_witness :
  _prefix node_A = _prefix node_C
  /\ e_sender {| e_type := JStr "result"; e_sender := "C"; e_id := Some "9";
                 e_name := None; e_args := []; e_error := None |} = id node_C
  /\ published
       (_handleMessage node_C empty_world
          (pocketResultMessage "A" (Some "9") (Some "unknown message type")
             None))
     = [ ("clouds:L:A",
          pocketResultMessage "C" (Some "9") (Some "unknown message type")
            None) ].
Proof.
  split; [reflexivity|]. split; [reflexivity|].
  apply (error_reply_bounces node_A node_C empty_world empty_world
           {| e_type := JStr "result"; e_sender := "C"; e_id := Some "9";
              e_name := None; e_args := []; e_error := None |}
           eq_refl); [discriminate | discriminate | reflexivity].
Defined.

(** ** Teardown, continued *)

(** X14: the callback given to [exit] is called exactly once, with the
    error, when the scan fails or when the deletion of a non-empty batch
    fails; when nothing fails it is never called. *)
Theorem exit_callback_only_on_failure (me : Server) (w : World)
    (cb : Callback) (keys_err del_err : option string) :
  notified (exit me w (Some cb) keys_err del_err)
  = notified w
    ++ match keys_err with
       | Some e => [(cb, Some e)]
       | None =>
           match cp_keys w (exit_pattern me), del_err with
           | _ :: _, Some e => [(cb, Some e)]
           | _, _ => []
           end
       end.
Proof.
  unfold exit. destruct keys_err as [e|]; [done|].
  destruct (cp_keys w (exit_pattern me)) as [|k l] eqn:E; simpl.
  - by rewrite app_nil_r.
  - destruct del_err as [e|]; simpl; [done | by rewrite app_nil_r].
Qed.

(** X15: when [exit] is called without a callback and the scan, or the
    deletion of a non-empty batch, fails, the failure is not reported: the
    attempt to call the missing callback raises, and keys, timer and
    connections stay as they were. *)
Theorem exit_without_callback_raises (me : Server) (w : World)
    (keys_err del_err : option string) :
  (keys_err <> None
   \/ (cp_keys w (exit_pattern me) <> [] /\ del_err <> None)) ->
  let w' := exit me w None keys_err del_err in
  length (uncaught w') = S (length (uncaught w))
  /\ store w' = store w /\ timer w' = timer w
  /\ cp_open w' = cp_open w /\ cs_open w' = cs_open w
  /\ notified w' = notified w.
Proof.
  intros H w'. subst w'. unfold exit.
  destruct keys_err as [e|].
  - simpl. rewrite length_app. simpl. repeat split; lia.
  - destruct H as [H|[Hne Hd]]; [done|].
    apply length_positive_nonempty in Hne. rewrite Hne.
    destruct del_err as [e|]; [|done].
    simpl. rewrite length_app. simpl. repeat split; lia.
Qed.

Lemma exit_without_callback_raises_witness :
  Some "ECONNRESET" <> (None : option string)
  /\ timer (exit node_A (set_timer (Some (Fin 5000)) world_two_prefixes) None
              (Some "ECONNRESET") None)
     = Some (Fin 5000).
Proof.
  split; [discriminate|].
  apply (exit_without_callback_raises node_A
           (set_timer (Some (Fin 5000)) world_two_prefixes)
           (Some "ECONNRESET") None).
  by left.
Defined.




(** X17: on a node without prefix, an [exit] on which nothing fails
    removes every key that contains the node's id, whoever wrote it, and
    leaves every key that does not contain it as it was. *)
Theorem exit_without_prefix (me : Server) (w : World)
    (callback : option Callback) (k : string) :
  truthy_str (_prefix me) = false ->
  plain (id me) ->
  let w' := exit me w callback None None in
  let contains_id := exists x y : string, k = x +:+ id me +:+ y in
  (contains_id -> store w' !! k = None)
  /\ (~ contains_id -> store w' !! k = store w !! k).
Proof.
  intros Ht Hi w' contains_id. subst w' contains_id.
  pose proof (exit_pattern_bare me k Ht Hi) as Hpat.
  rewrite exit_success_store by (by left). split.
  - intros Hc. apply Hpat in Hc. by rewrite Hc.
  - intros Hn. destruct (key_matches (exit_pattern me) k) eqn:E; [|done].
    exfalso. by apply Hn, Hpat.
Qed.

Lemma exit_without_prefix_witness :
  truthy_str "" = false
  /\ store (exit {| id := "A"; _heartbeat := JNum (Fin 5); _prefix := "";
                    _services := ∅ |}
              world_two_prefixes None None None) !! "other:S:echo:A" = None.
Proof.
  split; [reflexivity|].
  apply (exit_without_prefix
           {| id := "A"; _heartbeat := JNum (Fin 5); _prefix := "";
              _services := ∅ |}
           world_two_prefixes None "other:S:echo:A");
    [reflexivity | reflexivity |].
  by exists "other:S:echo:", "".
Defined.

(** X18: after an [exit] on which nothing fails the heartbeat timer no
    longer runs a heartbeat; after an [exit] that failed the timer is
    still set and the next tick runs [_keepHeartbeat] as before. *)
Theorem exit_and_timer (me : Server) (w : World) (cb : Callback)
    (keys_err del_err : option string) (period : jsnum) :
  timer w = Some period ->
  let w' := exit me w (Some cb) keys_err del_err in
  ((keys_err = None /\ (del_err = None \/ cp_keys w (exit_pattern me) = []))
   -> timer_fires me w' = w')
  /\ ((keys_err <> None
       \/ (cp_keys w (exit_pattern me) <> [] /\ del_err <> None))
      -> timer_fires me w' = _keepHeartbeat me w').
Proof.
  intros Htm w'. subst w'. unfold exit, timer_fires. split.
  - intros [-> Hok].
    destruct (0 <? length (cp_keys w (exit_pattern me)))%nat eqn:E; [|done].
    apply length_positive_nonempty in E. by destruct Hok as [->|Hok].
  - intros H. destruct keys_err as [e|]; [simpl; by rewrite Htm|].
    destruct H as [H|[Hne Hd]]; [done|].
    apply length_positive_nonempty in Hne. rewrite Hne.
    destruct del_err as [e|]; [|done]. simpl. by rewrite Htm.
Qed.

Lemma exit_and_timer_witness :
  timer (set_timer (Some (Fin 5000)) world_two_prefixes) = Some (Fin 5000)
  /\ timer_fires node_A
       (exit node_A (set_timer (Some (Fin 5000)) world_two_prefixes)
          (Some "done") None None)
     = exit node_A (set_timer (Some (Fin 5000)) world_two_prefixes)
         (Some "done") None None.
Proof.
  split; [reflexivity|].
  apply (exit_and_timer node_A (set_timer (Some (Fin 5000)) world_two_prefixes)
           "done" None None (Fin 5000) eq_refl).
  split; [reflexivity | by left].
Defined.

(** ** The constructor, continued *)

(** X19: a heartbeat option that converts to a number above zero is kept
    as given, and the timer is started with 1000 times it as [setInterval]
    takes it: for a whole number of seconds that is 1000 times the number
    when this is at most 2147483647 and 1 otherwise.  The prefix is the
    configured one unless that is empty, in which case it is the default;
    the new node has the generated id, no service, both connections open,
    an untouched key space, and one subscription, to its own
    ListenChannel. *)
Theorem constructor_honours_options (define_heartbeat : jsval)
    (define_redisPrefix uid : string) (o : Options) :
  js_gt (heartbeat o) 0 = true ->
  let me := (CloudsServer define_heartbeat define_redisPrefix uid (Some o)).1 in
  let w := (CloudsServer define_heartbeat define_redisPrefix uid (Some o)).2 in
  _heartbeat me = heartbeat o
  /\ timer w = Some (setInterval_delay (js_mul (heartbeat o) 1000))
  /\ (forall z : Z,
        to_number (heartbeat o) = Fin z ->
        timer w
        = Some (Fin (if (z * 1000 <=? 2147483647)%Z then z * 1000 else 1)))
  /\ _prefix me = (if truthy_str (redis_prefix o) then redis_prefix o
                   else define_redisPrefix)
  /\ id me = uid
  /\ _services me = ∅
  /\ subscribed w = [_key me ["L"; uid]]
  /\ cp_open w = true /\ cs_open w = true
  /\ store w = ∅ /\ published w = [].
Proof.
  intros Hgt me w. subst me w. unfold CloudsServer. rewrite Hgt. simpl.
  split; [done|]. split; [done|]. split; [|done].
  intros z Hz. unfold ns_heartbeat, js_mul. rewrite Hz.
  rewrite (js_gt_fin _ 0 z Hz) in Hgt. apply Z.ltb_lt in Hgt.
  unfold setInterval_delay, num_lt, num_gt.
  assert ((z * 1000 <? 1)%Z = false) as -> by (apply Z.ltb_ge; lia).
  simpl. destruct (z * 1000 <=? 2147483647)%Z eqn:E.
  - apply Z.leb_le in E.
    assert ((2147483647 <? z * 1000)%Z = false) as -> by (apply Z.ltb_ge; lia).
    done.
  - apply Z.leb_gt in E.
    assert ((2147483647 <? z * 1000)%Z = true) as -> by (apply Z.ltb_lt; lia).
    done.
Qed.

Lemma constructor_honours_options_witness :
  js_gt (JStr "2.5") 0 = true
  /\ _heartbeat (CloudsServer (JNum (Fin 5)) "clouds" "A"
                   (Some {| heartbeat := JStr "2.5"; redis_prefix := "" |})).1
     = JStr "2.5"
  /\ subscribed (CloudsServer (JNum (Fin 5)) "clouds" "A"
                   (Some {| heartbeat := JStr "2.5"; redis_prefix := "" |})).2
     = ["clouds:L:A"].
Proof.
  split; [reflexivity|].
  destruct (constructor_honours_options (JNum (Fin 5)) "clouds" "A"
              {| heartbeat := JStr "2.5"; redis_prefix := "" |} eq_refl)
    as (Hh & _ & _ & _ & _ & _ & Hs & _).
  split; [exact Hh | exact Hs].
Defined.

(** A heartbeat of 2147484 seconds is beyond what [setInterval] takes: the
    timer then runs every millisecond. *)
Example constructor_long_interval :
  timer (CloudsServer (JNum (Fin 5)) "clouds" "A"
           (Some {| heartbeat := JNum (Fin 2147484); redis_prefix := "" |})).2
  = Some (Fin 1).
Proof. vm_compute. reflexivity. Qed.
